(** * OBWCrawler: the bounded recursive crawl controller of [obwc.py]

    A shallow embedding of [extract_related_keywords],
    [search_videos_by_keyword], [validate_config] and [main], and the
    properties of the crawl that the specification states about them.

    Conventions of the embedding.
    - A Python [str] is a Rocq [string]; the character with code [n] stands
      for the code point [n] (the Latin-1 range of Unicode).
    - Python [int] is [Z].  A [float] is a finite double, taken as the
      rational it denotes, NaN or an infinity; arithmetic on the finite ones
      is exact.  Where CPython raises on a number the model does: a
      division by zero, the conversion of an [int] beyond the doubles to a
      [float], and [time.sleep] on a length that is negative, NaN or beyond
      what the platform can count.
    - The world outside the program (the YouTube API and the random number
      generator) is an abstract state threaded through every call; what the
      program does to it that can be observed (queries, recursive calls,
      sleeps, the two closing log lines) is emitted as a list of events.
    - An exception is a value of [exn]; a function that may raise returns a
      [result].

    Outside the model: the rounding of floating point numbers, the
    recursion limit of the interpreter, exceptions that are
    not an [Exception] (an interrupt), a failure of [build] to make the API
    client, and the log lines other than the two that close a call. *)

From Stdlib Require Import ZArith QArith List Permutation String Ascii Bool
  Lia Lqa.
Import ListNotations.

Local Open Scope Z_scope.

(* ------------------------------------------------------------------ *)
(** ** Text: [str.lower], [re.findall(r'\w+', s)] and [x in s] *)

Module Text.

Definition code (c : ascii) : Z := Z.of_N (N_of_ascii c).

Definition between (lo hi n : Z) : bool := (lo <=? n) && (n <=? hi).

(** [\w] on a [str] pattern: the code point is alphanumeric for Unicode
    or is the underscore.  In the Latin-1 range these are the ASCII
    letters and digits, [_], the letters [170 181 186], the letters
    [192..255] without the two signs [215] and [247], the superscript
    digits [178 179 185] and the fractions [188..190]. *)
Definition is_word (c : ascii) : bool :=
  let n := code c in
  between 48 57 n || between 65 90 n || (n =? 95) || between 97 122 n
  || (n =? 170) || (n =? 178) || (n =? 179) || (n =? 181) || (n =? 185)
  || (n =? 186) || between 188 190 n
  || between 192 214 n || between 216 246 n || between 248 255 n.

(** [str.lower] on one code point: the capital letters of Latin-1 are
    [65..90], [192..214] and [216..222], each 32 below its small letter. *)
Definition lower_char (c : ascii) : ascii :=
  let n := code c in
  if between 65 90 n || between 192 214 n || between 216 222 n
  then ascii_of_N (Z.to_N (n + 32)) else c.

Fixpoint lower (s : string) : string :=
  match s with
  | EmptyString => EmptyString
  | String c s' => String (lower_char c) (lower s')
  end.

(** [re.findall(r'\w+', s)]: the maximal runs of word characters, from
    left to right.  [cur] is the run being read. *)
Fixpoint findall_from (cur : string) (s : string) : list string :=
  match s with
  | EmptyString =>
      match cur with EmptyString => [] | _ => [cur] end
  | String c s' =>
      if is_word c then findall_from (String.append cur (String c EmptyString)) s'
      else match cur with
           | EmptyString => findall_from EmptyString s'
           | _ => cur :: findall_from EmptyString s'
           end
  end.

Definition findall_words (s : string) : list string :=
  findall_from EmptyString s.

(** [needle in hay] *)
Fixpoint contains (needle hay : string) : bool :=
  String.prefix needle hay
  || match hay with
     | EmptyString => false
     | String _ hay' => contains needle hay'
     end.

(** [not s] for a string *)
Definition falsy (s : string) : bool :=
  match s with EmptyString => true | _ => false end.

End Text.

(* ------------------------------------------------------------------ *)
(** ** Data model *)

(** The exceptions the program meets.  The [content] of an [HttpError] is
    the text [str(e.content)].  [FuelExhausted] is not a Python exception:
    it marks a model run that was given too little recursion fuel, and
    [search_videos_by_keyword] never produces it ([search_unfold],
    [search_body_raises]). *)
Inductive exn : Type :=
| ValueError (msg : string)
| KeyError (key : string)
| HttpError (status : Z) (content : string)
| ZeroDivisionError
| OverflowError
| OtherException (name : string)
| FuelExhausted.

Inductive result (A : Type) : Type :=
| Ok (a : A)
| Raise (e : exn).
Arguments Ok {A} a.
Arguments Raise {A} e.

Definition bind {A B : Type} (r : result A) (f : A -> result B) : result B :=
  match r with
  | Ok a => f a
  | Raise e => Raise e
  end.

(** A Python [float]: a finite double, NaN, or an infinity. *)
Inductive float : Type :=
| Finite (q : Q)
| NaN
| Infinity (negative : bool).

(** A number: an [int] or a [float].  A [bool] is the [int] 0 or 1. *)
Inductive number : Type :=
| Int (z : Z)
| Float (f : float).

(** [float(z)] for an [int], as the arithmetic of an [int] with a [float]
    does it: [OverflowError] when [z] rounds to a double beyond the largest
    one, [2^1024 - 2^971], that is from [2^1024 - 2^970] on. *)
Definition too_large_for_float (z : Z) : bool :=
  2 ^ 1024 - 2 ^ 970 <=? Z.abs z.

(** An item of the API's answer, as the controller reads it:
    [item['snippet']['title']], [item['id']['videoId']],
    [item['snippet']['channelTitle']], [item['snippet'].get('description')].
    [None] is a key that the dictionary does not have. *)
Record snippet : Type := {
  sn_title : option string;
  sn_channelTitle : option string;
  sn_description : option string
}.

Record search_result : Type := {
  sr_snippet : option snippet;
  sr_videoId : option (option string)   (* ['id'], then ['videoId'] *)
}.

(** [video_metadata]: the dictionary with the keys
    title, url, channel, description, depth. *)
Record video : Type := {
  v_title : string;
  v_url : string;
  v_channel : string;
  v_description : string;
  v_depth : Z
}.

(** What [youtube.search().list(...).execute()] gives: a response whose
    ['items'] may be missing, or an exception. *)
Inductive response : Type :=
| Response (items : option (list search_result))
| Failure (e : exn).

(** The arguments of one call of [search_videos_by_keyword]. *)
Record args : Type := {
  keyword : string;
  max_results : Z;
  depth : Z;
  max_depth : Z;
  api_key : option string;
  max_retries : Z;
  default_timeout : number
}.

Inductive event : Type :=
| Query (q : string) (maxResults : Z)     (* lines 96-101: one API request *)
| Call (caller callee : args)             (* line 121: a recursive call *)
| Sleep (n : Z) (sleep_time : Q)          (* line 134, in attempt [n] *)
| Found (count : nat)                     (* line 123 *)
| NoVideos                                (* line 142 *)
| RateLimit (sleep_time : Q)              (* line 209 *)
| Saved (all_videos : list video).        (* lines 213-215 *)

(** The environment of a run: the API, [random.randint(0, 1000)] with the
    range Python documents for it, the order in which [list(set(l))]
    enumerates the distinct elements of [l], which CPython derives from the
    hashes of the strings and so fixes per interpreter process only, and
    the longest sleep that [time.sleep] accepts.  CPython counts a timeout
    in nanoseconds on 64 bits, so the limit is [2^63] ns, between
    9223372036 and 9223372037 seconds; which doubles next to the limit
    pass depends on the version. *)
Record Env : Type := {
  World : Type;
  execute : string -> Z -> World -> response * World;
  randint : World -> Z * World;
  randint_range : forall w, 0 <= fst (randint w) <= 1000;
  set_list : list string -> list string;
  set_list_NoDup : forall l, NoDup (set_list l);
  set_list_In : forall l x, In x (set_list l) <-> In x l;
  sleep_max : Q;
  sleep_max_range : (9223372036 <= sleep_max <= 9223372037)%Q
}.

(* ------------------------------------------------------------------ *)
(** ** The keyword extractor and the controller *)

Section Crawl.

Context (E : Env).

Definition M (A : Type) : Type := World E -> A * World E * list event.

(** [extract_related_keywords], lines 145-168. *)
Definition extract_related_keywords (video_metadata : video) : list string :=
  let title := v_title video_metadata in
  let description := v_description video_metadata in
  if Text.falsy description then []
  else
    let title_keywords := Text.findall_words (Text.lower title) in
    let description_keywords := Text.findall_words (Text.lower description) in
    set_list E (title_keywords ++ description_keywords).

(** The dictionary of lines 106-112.  The keys are read in the order of
    the dictionary display; a missing one raises [KeyError], except
    ['description'], read with [.get(..., '')]. *)
Definition video_metadata (d : Z) (search_result : search_result)
  : result video :=
  match sr_snippet search_result with
  | None => Raise (KeyError "snippet")
  | Some sn =>
      match sn_title sn with
      | None => Raise (KeyError "title")
      | Some t =>
          match sr_videoId search_result with
          | None => Raise (KeyError "id")
          | Some None => Raise (KeyError "videoId")
          | Some (Some vid) =>
              match sn_channelTitle sn with
              | None => Raise (KeyError "channelTitle")
              | Some ch =>
                  Ok {| v_title := t;
                        v_url := String.append "https://www.youtube.com/watch?v=" vid;
                        v_channel := ch;
                        v_description :=
                          match sn_description sn with
                          | Some de => de
                          | None => EmptyString
                          end;
                        v_depth := d |}
              end
          end
      end
  end.

(** [range(n)] *)
Definition range (n : Z) : list Z := map Z.of_nat (seq 0 (Z.to_nat n)).

(** The truth value of [api_key] in [if not api_key]: [None] and the empty
    string are false. *)
Definition truthy (k : option string) : bool :=
  match k with
  | Some s => negb (Text.falsy s)
  | None => false
  end.

(** [e.resp.status == 403 and 'quotaExceeded' in str(e.content)] *)
Definition quota_exceeded (status : Z) (content : string) : bool :=
  (status =? 403) && Text.contains "quotaExceeded" content.

(** [e.resp.status in [403, 500, 503]] *)
Definition retryable_status (status : Z) : bool :=
  (status =? 403) || (status =? 500) || (status =? 503).

(** The value of line 132 for a finite [default_timeout] and the draw [j]:
    [default_timeout * (2 ** n) + j / 1000] *)
Definition backoff (default_timeout : Q) (n j : Z) : Q :=
  (default_timeout * inject_Z (2 ^ n) + (j # 1000))%Q.

(** Line 132:
    [default_timeout * (2 ** n) + random.randint(0, 1000) / 1000].
    The product is evaluated before the draw.  With a [float]
    [default_timeout] the [int] [2 ** n] is converted for the product; with
    an [int] one the product is an [int], converted for the sum after the
    draw.  A conversion that fails raises [OverflowError].  [n] is an
    index of [range(max_retries)], so it is not negative. *)
Definition sleep_time (default_timeout : number) (n : Z) (w : World E)
  : result float * World E :=
  match default_timeout with
  | Int z =>
      let '(j, w') := randint E w in
      if too_large_for_float (z * 2 ^ n) then (Raise OverflowError, w')
      else (Ok (Finite (backoff (inject_Z z) n j)), w')
  | Float f =>
      if too_large_for_float (2 ^ n) then (Raise OverflowError, w)
      else
        let '(j, w') := randint E w in
        (Ok match f with
            | Finite q => Finite (backoff q n j)
            | NaN => NaN
            | Infinity negative => Infinity negative
            end, w')
  end.

(** [time.sleep(t)]: the seconds slept, or what it raises.  The length is
    first turned into a count of nanoseconds: NaN is refused with
    [ValueError], a length beyond the limit on either side of 0, as an
    infinity is, with [OverflowError]; then a negative length is refused
    with [ValueError]. *)
Definition time_sleep (t : float) : result Q :=
  match t with
  | Finite q =>
      if Qle_bool (- sleep_max E) q && Qle_bool q (sleep_max E) then
        if Qle_bool 0 q then Ok q
        else Raise (ValueError "sleep length must be non-negative")
      else Raise OverflowError
  | NaN => Raise (ValueError "Invalid value NaN (not a number)")
  | Infinity _ => Raise OverflowError
  end.

(** The state of the [try] body when it stops: the exception that leaves
    it, if one does, and the list [videos] as mutated up to there. *)
Definition body_state : Type := option exn * list video.

Section Body.

(** [rec] stands for the function itself at the calls of line 121. *)
Variable rec : args -> M (result (list video)).
Variable a : args.

(** The arguments of the call of line 121 for the keyword [kw]. *)
Definition sub_call (kw : string) : args :=
  {| keyword := kw;
     max_results := max_results a;
     depth := depth a + 1;
     max_depth := max_depth a;
     api_key := api_key a;
     max_retries := max_retries a;
     default_timeout := default_timeout a |}.

(** Lines 120-121: [for keyword in related_keywords:
    videos.extend(search_videos_by_keyword(keyword, ...))].
    An exception of a call leaves the loop with [videos] as it is. *)
Fixpoint extend_related (related_keywords : list string)
    (videos : list video) : M body_state :=
  fun w =>
  match related_keywords with
  | [] => ((None, videos), w, [])
  | kw :: rest =>
      let '(r, w1, e1) := rec (sub_call kw) w in
      match r with
      | Ok found =>
          let '(st, w2, e2) := extend_related rest (videos ++ found) w1 in
          (st, w2, Call a (sub_call kw) :: e1 ++ e2)
      | Raise e =>
          ((Some e, videos), w1, Call a (sub_call kw) :: e1)
      end
  end.

(** Lines 104-121: the loop over the items of the response.  The test
    [if related_keywords:] of line 118 guards a debug log and a loop
    that does nothing on an empty list, so it is not a case here. *)
Fixpoint process_items (items : list search_result)
    (videos : list video) : M body_state :=
  fun w =>
  match items with
  | [] => ((None, videos), w, [])
  | search_result :: rest =>
      match video_metadata (depth a) search_result with
      | Raise e => ((Some e, videos), w, [])
      | Ok vm =>
          let videos1 := videos ++ [vm] in
          if depth a <? max_depth a then
            let related_keywords := extract_related_keywords vm in
            let '((x, videos2), w1, e1) :=
              extend_related related_keywords videos1 w in
            match x with
            | Some e => ((Some e, videos2), w1, e1)
            | None =>
                let '(st, w2, e2) := process_items rest videos2 w1 in
                (st, w2, e1 ++ e2)
            end
          else process_items rest videos1 w
      end
  end.

(** Lines 94-124: the body of the [try] of one attempt.  [None] is the
    [return videos] of line 124, after the log of line 123. *)
Definition attempt (videos : list video) : M body_state :=
  fun w =>
  let q := Query (keyword a) (max_results a) in
  let '(search_response, w1) := execute E (keyword a) (max_results a) w in
  match search_response with
  | Failure e => ((Some e, videos), w1, [q])
  | Response items =>
      let '((x, videos'), w2, e2) :=
        process_items (match items with Some l => l | None => [] end)
                      videos w1 in
      match x with
      | Some e => ((Some e, videos'), w2, q :: e2)
      | None => ((None, videos'), w2, q :: e2 ++ [Found (List.length videos')])
      end
  end.

(** Lines 92-143: [for n in range(max_retries)] with its handlers, then
    lines 142-143.  [videos] is the one list created at line 90.
    The rebinding of [keyword] by the loop of line 120 is seen by the
    log lines only: after it the body ends by [return] or by an
    exception that is not an [HttpError] of a retryable status. *)
Fixpoint retry_loop (ns : list Z) (videos : list video)
  : M (result (list video)) :=
  fun w =>
  match ns with
  | [] => (Ok videos, w, [NoVideos])
  | n :: rest =>
      let '((x, videos'), w1, e1) := attempt videos w in
      match x with
      | None => (Ok videos', w1, e1)
      | Some (HttpError status content) =>
          if quota_exceeded status content then
            (Ok videos', w1, e1 ++ [NoVideos])              (* break *)
          else if retryable_status status then
            let '(t, w2) := sleep_time (default_timeout a) n w1 in
            match bind t time_sleep with
            | Ok slept =>
                let '(r, w3, e3) := retry_loop rest videos' w2 in
                (r, w3, e1 ++ Sleep n slept :: e3)
            | Raise e =>
                (* raised in the handler by line 132 or by line 134, the
                   error leaves the function *)
                (Raise e, w2, e1)
            end
          else
            (Ok videos', w1, e1 ++ [NoVideos])              (* break *)
      | Some _ =>
          (Ok videos', w1, e1 ++ [NoVideos])                (* break *)
      end
  end.

(** Lines 83-143.  [build] makes the client and does not fail. *)
Definition search_body : M (result (list video)) :=
  fun w =>
  if truthy (api_key a) then retry_loop (range (max_retries a)) [] w
  else (Raise (ValueError "API key is required"), w, []).

End Body.

(** The recursion of [search_videos_by_keyword], on a fuel that bounds
    the nesting of calls. *)
Fixpoint search (fuel : nat) (a : args) : M (result (list video)) :=
  match fuel with
  | O => fun w => (Raise FuelExhausted, w, [])
  | S fuel' => search_body (search fuel') a
  end.

(** [search_videos_by_keyword]: a call at [depth] nests at most
    [max_depth - depth] calls, and one more level of fuel runs its body. *)
Definition search_videos_by_keyword (a : args) : M (result (list video)) :=
  search (S (Z.to_nat (max_depth a - depth a))) a.

End Crawl.

Arguments sleep_time E default_timeout n w : simpl never.
Arguments time_sleep E t : simpl never.
Arguments extend_related {E} rec a related_keywords videos w.
Arguments process_items {E} rec a items videos w.
Arguments attempt {E} rec a videos w.
Arguments retry_loop {E} rec a ns videos w.
Arguments search_body {E} rec a w.

(* ------------------------------------------------------------------ *)
(** ** The configuration and [main] *)

(** The values of [config.json] that the program looks at.  A list of
    keywords is a list of strings. *)
Inductive value : Type :=
| VNone
| VBool (b : bool)
| VInt (z : Z)
| VFloat (f : float)
| VStr (s : string)
| VList (l : list string).

(** The dictionary that [json.load] returns. *)
Definition config : Type := list (string * value).

(** [key in config] *)
Fixpoint has_key (c : config) (key : string) : bool :=
  match c with
  | [] => false
  | (k, _) :: c' => String.eqb k key || has_key c' key
  end.

(** [config.get(key)], [None] when the key is missing *)
Fixpoint get (c : config) (key : string) : value :=
  match c with
  | [] => VNone
  | (k, v) :: c' => if String.eqb k key then v else get c' key
  end.

(** The truth value of [v] in a condition *)
Definition is_true (v : value) : bool :=
  match v with
  | VNone => false
  | VBool b => b
  | VInt z => negb (z =? 0)
  | VFloat (Finite q) => negb (Qeq_bool q 0)
  | VFloat _ => true
  | VStr s => negb (Text.falsy s)
  | VList l => match l with [] => false | _ => true end
  end.

Definition isinstance_str (v : value) : bool :=
  match v with VStr _ => true | _ => false end.

Definition isinstance_list (v : value) : bool :=
  match v with VList _ => true | _ => false end.

(** [isinstance(v, int)]: [bool] is a subclass of [int]. *)
Definition isinstance_int (v : value) : bool :=
  match v with VInt _ | VBool _ => true | _ => false end.

(** [isinstance(v, (int, float))] *)
Definition isinstance_number (v : value) : bool :=
  match v with VInt _ | VBool _ | VFloat _ => true | _ => false end.

(** The number that [v] is in arithmetic and comparisons. *)
Definition number_of (v : value) : number :=
  match v with
  | VBool b => Int (if b then 1 else 0)
  | VInt z => Int z
  | VFloat f => Float f
  | _ => Int 0
  end.

Definition int_of (v : value) : Z :=
  match v with
  | VBool true => 1
  | VInt z => z
  | _ => 0
  end.

(** [x < bound] for a number and an [int]: a comparison with NaN is
    false. *)
Definition number_lt (x : number) (bound : Z) : bool :=
  match x with
  | Int z => z <? bound
  | Float (Finite q) => negb (Qle_bool (inject_Z bound) q)
  | Float NaN => false
  | Float (Infinity negative) => negative
  end.

(** [v < bound], for a number [v] *)
Definition less_than (v : value) (bound : Z) : bool :=
  number_lt (number_of v) bound.

(** [1 / x], line 188: a [float].  A zero raises; the inverse of an
    infinity is zero. *)
Definition one_over (x : number) : result float :=
  match x with
  | Int z =>
      if z =? 0 then Raise ZeroDivisionError
      else Ok (Finite (1 / inject_Z z))
  | Float (Finite q) =>
      if Qeq_bool q 0 then Raise ZeroDivisionError else Ok (Finite (1 / q))
  | Float NaN => Ok NaN
  | Float (Infinity _) => Ok (Finite 0)
  end.

(** The checks of [load_config] on the parsed file, lines 33-44. *)
Definition load_config (c : config) : result config :=
  if negb (is_true (get c "api_key")) then
    Raise (ValueError "API key is required")
  else if forallb (has_key c)
            ["keywords"; "max_results_per_keyword"; "requests_per_second";
             "max_depth"]%string then Ok c
  else Raise (ValueError "Configuration file is missing required keys").

(** [validate_config], lines 46-76. *)
Definition validate_config (c : config) : result unit :=
  let api_key := get c "api_key" in
  if negb (is_true api_key) || negb (isinstance_str api_key) then
    Raise (ValueError "API key must be a non-empty string")
  else
  let keywords := get c "keywords" in
  if negb (is_true keywords) || negb (isinstance_list keywords) then
    Raise (ValueError "Keywords must be a non-empty list")
  else
  let max_results_per_keyword := get c "max_results_per_keyword" in
  if negb (isinstance_int max_results_per_keyword)
     || less_than max_results_per_keyword 1 then
    Raise (ValueError "Max results per keyword must be a positive integer")
  else
  let requests_per_second := get c "requests_per_second" in
  if negb (isinstance_number requests_per_second)
     || less_than requests_per_second 0 then
    Raise (ValueError "Requests per second must be a non-negative number")
  else
  let max_depth := get c "max_depth" in
  if negb (isinstance_int max_depth) || less_than max_depth 1 then
    Raise (ValueError "Max depth must be a positive integer")
  else
  let max_retries := get c "max_retries" in
  if negb (isinstance_int max_retries) || less_than max_retries 1 then
    Raise (ValueError "Max retries must be a positive integer")
  else
  let default_timeout := get c "default_timeout" in
  if negb (isinstance_number default_timeout)
     || less_than default_timeout 0 then
    Raise (ValueError "Default timeout must be a non-negative number")
  else Ok tt.

Section Main.

Context (E : Env).

(** Lines 194-209: the loop over the seed keywords.  [depth] takes its
    default [0]. *)
Fixpoint crawl (keywords : list string) (max_results max_depth : Z)
    (api_key : option string) (max_retries : Z) (default_timeout : number)
    (sleep_time : float) (all_videos : list video)
  : M E (result (list video)) :=
  fun w =>
  match keywords with
  | [] => (Ok all_videos, w, [])
  | keyword :: rest =>
      let '(r, w1, e1) :=
        search_videos_by_keyword E
          {| keyword := keyword; max_results := max_results; depth := 0;
             max_depth := max_depth; api_key := api_key;
             max_retries := max_retries;
             default_timeout := default_timeout |} w in
      match r with
      | Raise e => (Raise e, w1, e1)
      | Ok videos =>
          match time_sleep E sleep_time with                  (* line 209 *)
          | Ok slept =>
              let '(r2, w2, e2) :=
                crawl rest max_results max_depth api_key max_retries
                      default_timeout sleep_time (all_videos ++ videos) w1 in
              (r2, w2, e1 ++ RateLimit slept :: e2)
          | Raise e => (Raise e, w1, e1)
          end
      end
  end.

(** [main], lines 170-217, from the parsed configuration file on. *)
Definition main (file : config) : M E (result unit) :=
  fun w =>
  match load_config file with
  | Raise e => (Raise e, w, [])
  | Ok c =>
      match validate_config c with
      | Raise _ => (Ok tt, w, [])            (* logged; [return] *)
      | Ok _ =>
          let keywords :=
            match get c "keywords" with VList l => l | _ => [] end in
          let max_results := int_of (get c "max_results_per_keyword") in
          let requests_per_second := number_of (get c "requests_per_second") in
          let max_depth := int_of (get c "max_depth") in
          let api_key :=
            match get c "api_key" with VStr s => Some s | _ => None end in
          let max_retries := int_of (get c "max_retries") in
          let default_timeout := number_of (get c "default_timeout") in
          match one_over requests_per_second with          (* line 188 *)
          | Raise e => (Raise e, w, [])
          | Ok sleep_time =>
              let '(r, w1, e1) :=
                crawl keywords max_results max_depth api_key max_retries
                      default_timeout sleep_time [] w in
              match r with
              | Raise e => (Raise e, w1, e1)
              | Ok all_videos => (Ok tt, w1, e1 ++ [Saved all_videos])
              end
          end
      end
  end.

End Main.

(* ================================================================== *)
(** * Definitions for the statements *)

(* ------------------------------------------------------------------ *)
(** ** What a run shows *)

Section Observations.

Context (E : Env).

(** What a call returns or raises, and the events it emits. *)
Definition returned (x : result (list video) * World E * list event)
  : result (list video) := fst (fst x).

Definition events_of (x : result (list video) * World E * list event)
  : list event := snd x.

End Observations.

Arguments returned {E} x.
Arguments events_of {E} x.

(** The videos a call hands back ([[]] when it raises). *)
Definition videos_of (r : result (list video)) : list video :=
  match r with Ok vs => vs | Raise _ => [] end.

(** The number of calls that can nest below a call. *)
Definition nesting (a : args) : nat := Z.to_nat (max_depth a - depth a).

Definition is_call (e : event) : bool :=
  match e with Call _ _ => true | _ => false end.

Definition is_sleep (e : event) : bool :=
  match e with Sleep _ _ => true | _ => false end.

Definition is_query (e : event) : bool :=
  match e with Query _ _ => true | _ => false end.

Definition sleeps (evs : list event) : nat := List.length (filter is_sleep evs).
Definition queries (evs : list event) : nat := List.length (filter is_query evs).

(** The call returned by line 124: its last event is the log of line 123. *)
Definition ends_with_found (evs : list event) : bool :=
  match last evs NoVideos with Found _ => true | _ => false end.

(** A failure that is not retried: quota exhaustion, another status, or an
    exception that is not an [HttpError]. *)
Definition stops (e : exn) : bool :=
  match e with
  | HttpError status content =>
      quota_exceeded status content || negb (retryable_status status)
  | _ => true
  end.

(** [range m] from its index [k] on. *)
Definition range_from (k : nat) (m : Z) : list Z :=
  map Z.of_nat (seq k (Z.to_nat m - k)).

(* ------------------------------------------------------------------ *)
(** ** Depth of the recursion *)

(** Two calls differ in keyword and depth at most. *)
Definition same_settings (x y : args) : Prop :=
  max_results x = max_results y /\ max_depth x = max_depth y /\
  api_key x = api_key y /\ max_retries x = max_retries y /\
  default_timeout x = default_timeout y.

(** A recursive call seen in a run of the call [a0]: its caller is below
    [max_depth] and not above [a0], the callee is one level deeper, and the
    settings are those of [a0] all along. *)
Definition call_ok (a0 : args) (e : event) : Prop :=
  match e with
  | Call caller callee =>
      depth caller < max_depth caller /\
      depth callee = depth caller + 1 /\
      same_settings callee caller /\
      same_settings caller a0 /\
      depth a0 <= depth caller
  | _ => True
  end.

(** The depth tag of a video returned by the call [a0]. *)
Definition depth_ok (a0 : args) (v : video) : Prop :=
  depth a0 <= v_depth v <= Z.max (depth a0) (max_depth a0).

(* ------------------------------------------------------------------ *)
(** ** The length of a sleep *)

(** The seconds that a finite number denotes. *)
Definition seconds (x : number) : option Q :=
  match x with
  | Int z => Some (inject_Z z)
  | Float (Finite q) => Some q
  | Float _ => None
  end.

(** The bound of the claim: the jitter is strictly below one second. *)
Definition sleep_half_open (a0 : args) (e : event) : Prop :=
  match e with
  | Sleep n t =>
      forall b, seconds (default_timeout a0) = Some b ->
        (b * inject_Z (2 ^ n) <= t /\ t < b * inject_Z (2 ^ n) + 1)%Q
  | _ => True
  end.

(** The bound of the code: [random.randint(0, 1000)] may draw [1000].
    The backoff [b] of a call that sleeps is a finite number. *)
Definition sleep_closed (a0 : args) (e : event) : Prop :=
  match e with
  | Sleep n t =>
      0 <= n < max_retries a0 /\
      exists b, seconds (default_timeout a0) = Some b /\
        (exists j, 0 <= j <= 1000 /\ t = backoff b n j) /\
        (b * inject_Z (2 ^ n) <= t <= b * inject_Z (2 ^ n) + 1)%Q
  | _ => True
  end.

(** A number that is not below zero, as [validate_config] checks it with
    [default_timeout < 0]: NaN and the positive infinity pass. *)
Definition not_negative (x : number) : bool := negb (number_lt x 0).

(** The backoff of the call [a] is a finite number that is not negative,
    the longest sleep of the call, that of its last attempt with the
    largest jitter, is a length that [time.sleep] accepts, and a [float]
    backoff is multiplied by [2 ** n] for [n < 1024] only. *)
Definition backoff_ok (E : Env) (a : args) : bool :=
  match default_timeout a with
  | Int z =>
      (0 <=? z)
      && Qle_bool (backoff (inject_Z z) (max_retries a - 1) 1000) (sleep_max E)
  | Float (Finite q) =>
      Qle_bool 0 q
      && Qle_bool (backoff q (max_retries a - 1) 1000) (sleep_max E)
      && (max_retries a <=? 1024)
  | Float _ => false
  end.

(* ------------------------------------------------------------------ *)
(** ** The specification's view of a call *)

Section Specification.

Context (E : Env).

(** The events of a run are allowed by [Pe] and the videos by [Pv]. *)
Definition inv_run (Pe : args -> event -> Prop) (Pv : args -> video -> Prop)
    (a : args) (x : result (list video) * World E * list event) : Prop :=
  Forall (Pe a) (events_of x) /\ Forall (Pv a) (videos_of (returned x)).

Definition inv_body (Pe : args -> event -> Prop) (Pv : args -> video -> Prop)
    (a : args) (x : body_state * World E * list event) : Prop :=
  Forall (Pe a) (snd x) /\ Forall (Pv a) (snd (fst (fst x))).

(** No call raises an [HttpError]: the handlers catch it. *)
Definition no_http (f : args -> M E (result (list video))) : Prop :=
  forall a w status content,
    returned (f a w) <> Raise (HttpError status content).

(** The API answers a request by its query and its result cap alone. *)
Definition deterministic (api : string -> Z -> response) : Prop :=
  forall q m w, fst (execute E q m w) = api q m.

(** The API fails every request of the call [a] with an error that is
    retried. *)
Definition always_retryable (a : args) : Prop :=
  forall w, exists status content w1,
    execute E (keyword a) (max_results a) w
    = (Failure (HttpError status content), w1)
    /\ quota_exceeded status content = false
    /\ retryable_status status = true.

(** The state machine of the specification, [Attempting(n)] to
    [Attempting(n+1)] on a retryable failure: the world after the attempts
    [ns] when each of them fails with a retryable error and sleeps, with
    the events of these attempts; [None] when one of them does not, or
    when the sleep raises. *)
Fixpoint after_failures (a : args) (ns : list Z) (w : World E)
  : option (World E * list event) :=
  match ns with
  | [] => Some (w, [])
  | n :: rest =>
      match execute E (keyword a) (max_results a) w with
      | (Failure (HttpError status content), w1) =>
          if negb (quota_exceeded status content) && retryable_status status
          then
            let '(t, w2) := sleep_time E (default_timeout a) n w1 in
            match bind t (time_sleep E) with
            | Ok slept =>
                match after_failures a rest w2 with
                | Some (w', e) =>
                    Some (w', Query (keyword a) (max_results a)
                              :: Sleep n slept :: e)
                | None => None
                end
            | Raise _ => None
            end
          else None
      | _ => None
      end
  end.

(** The sequence in the words of the specification.  [sub_results] runs
    the recursive calls for the keywords in their order and keeps the
    result sequence of each; the block of an item is the item followed by
    these sequences; the whole is the blocks of the items in their order. *)
Fixpoint sub_results (a : args) (related_keywords : list string)
  : M E (list (list video)) :=
  fun w =>
  match related_keywords with
  | [] => ([], w, [])
  | kw :: rest =>
      let '(r, w1, e1) := search_videos_by_keyword E (sub_call a kw) w in
      let '(rs, w2, e2) := sub_results a rest w1 in
      (videos_of r :: rs, w2, Call a (sub_call a kw) :: e1 ++ e2)
  end.

Definition item_block (a : args) (v : video) : M E (list video) :=
  fun w =>
  if depth a <? max_depth a then
    let '(rs, w1, e1) := sub_results a (extract_related_keywords E v) w in
    (v :: List.concat rs, w1, e1)
  else ([v], w, []).

Fixpoint interleaved (a : args) (items : list video) : M E (list video) :=
  fun w =>
  match items with
  | [] => ([], w, [])
  | v :: rest =>
      let '(block, w1, e1) := item_block a v w in
      let '(blocks, w2, e2) := interleaved a rest w1 in
      (block ++ blocks, w2, e1 ++ e2)
  end.

(** The retry loop in the words of the specification: every attempt
    builds a new accumulator, and what an attempt that is retried has
    gathered is dropped. *)
Fixpoint retry_loop_fresh (rec : args -> M E (result (list video)))
    (a : args) (ns : list Z) : M E (result (list video)) :=
  fun w =>
  match ns with
  | [] => (Ok [], w, [NoVideos])
  | n :: rest =>
      let '((x, videos), w1, e1) := attempt rec a [] w in
      match x with
      | None => (Ok videos, w1, e1)
      | Some (HttpError status content) =>
          if quota_exceeded status content then
            (Ok videos, w1, e1 ++ [NoVideos])
          else if retryable_status status then
            let '(t, w2) := sleep_time E (default_timeout a) n w1 in
            match bind t (time_sleep E) with
            | Ok slept =>
                let '(r, w3, e3) := retry_loop_fresh rec a rest w2 in
                (r, w3, e1 ++ Sleep n slept :: e3)
            | Raise e => (Raise e, w2, e1)
            end
          else
            (Ok videos, w1, e1 ++ [NoVideos])
      | Some _ =>
          (Ok videos, w1, e1 ++ [NoVideos])
      end
  end.

Definition search_body_fresh (rec : args -> M E (result (list video)))
    (a : args) : M E (result (list video)) :=
  fun w =>
  if truthy (api_key a) then retry_loop_fresh rec a (range (max_retries a)) w
  else (Raise (ValueError "API key is required"), w, []).

Fixpoint search_fresh (fuel : nat) (a : args) : M E (result (list video)) :=
  match fuel with
  | O => fun w => (Raise FuelExhausted, w, [])
  | S fuel' => search_body_fresh (search_fresh fuel') a
  end.

Definition search_videos_fresh (a : args) : M E (result (list video)) :=
  search_fresh (S (nesting a)) a.

End Specification.

Arguments inv_run {E} Pe Pv a x.
Arguments inv_body {E} Pe Pv a x.
Arguments no_http {E} f.
Arguments after_failures {E} a ns w.
Arguments sub_results {E} a related_keywords w.
Arguments item_block {E} a v w.
Arguments interleaved {E} a items w.
Arguments retry_loop_fresh {E} rec a ns w.
Arguments search_body_fresh {E} rec a w.

(* ------------------------------------------------------------------ *)
(** ** Concrete environments *)

Module Worlds.

(** Two enumerations of the distinct elements of a list, each a possible
    order of [list(set(l))]. *)
Definition distinct (l : list string) : list string := nodup string_dec l.
Definition distinct_rev (l : list string) : list string := rev (distinct l).

Lemma distinct_NoDup l : NoDup (distinct l).
Proof. apply NoDup_nodup. Qed.

Lemma distinct_In l x : In x (distinct l) <-> In x l.
Proof. apply nodup_In. Qed.

Lemma distinct_rev_NoDup l : NoDup (distinct_rev l).
Proof. apply NoDup_rev, NoDup_nodup. Qed.

Lemma distinct_rev_In l x : In x (distinct_rev l) <-> In x l.
Proof.
  unfold distinct_rev. rewrite <- in_rev. apply nodup_In.
Qed.

(** A scripted world: the answers the API gives to the coming requests,
    in order (an empty response once they are used up), and the coming
    draws of the generator. *)
Record script : Type := {
  answers : list response;
  draws : list Z
}.

Definition script_execute (q : string) (maxResults : Z) (w : script)
  : response * script :=
  match answers w with
  | [] => (Response (Some []), w)
  | r :: rs => (r, {| answers := rs; draws := draws w |})
  end.

Definition clamp (j : Z) : Z := Z.max 0 (Z.min 1000 j).

Definition script_randint (w : script) : Z * script :=
  match draws w with
  | [] => (0, w)
  | j :: js => (clamp j, {| answers := answers w; draws := js |})
  end.

Lemma script_randint_range w : 0 <= fst (script_randint w) <= 1000.
Proof.
  unfold script_randint, clamp. destruct (draws w); simpl; lia.
Qed.

(** A platform whose longest sleep is 9223372036 seconds. *)
Definition longest_sleep : Q := 9223372036.

Lemma longest_sleep_range :
  (9223372036 <= longest_sleep <= 9223372037)%Q.
Proof. split; discriminate. Qed.

Definition scripted : Env :=
  {| World := script;
     execute := script_execute;
     randint := script_randint;
     randint_range := script_randint_range;
     set_list := distinct;
     set_list_NoDup := distinct_NoDup;
     set_list_In := distinct_In;
     sleep_max := longest_sleep;
     sleep_max_range := longest_sleep_range |}.

(** A deterministic API: the answer is a function of the query alone.
    The generator always draws [j]. *)
Section Keyed.

Variable api : string -> response.
Variable order : list string -> list string.
Hypothesis order_NoDup : forall l, NoDup (order l).
Hypothesis order_In : forall l x, In x (order l) <-> In x l.

Definition keyed_execute (q : string) (maxResults : Z) (w : Z)
  : response * Z := (api q, w).

Definition keyed_randint (w : Z) : Z * Z := (clamp w, w).

Lemma keyed_randint_range w : 0 <= fst (keyed_randint w) <= 1000.
Proof. unfold keyed_randint, clamp. simpl. lia. Qed.

Definition keyed : Env :=
  {| World := Z;
     execute := keyed_execute;
     randint := keyed_randint;
     randint_range := keyed_randint_range;
     set_list := order;
     set_list_NoDup := order_NoDup;
     set_list_In := order_In;
     sleep_max := longest_sleep;
     sleep_max_range := longest_sleep_range |}.

End Keyed.

(** Items and arguments for the examples. *)
Definition item (t vid ch : string) (de : option string) : search_result :=
  {| sr_snippet := Some {| sn_title := Some t;
                           sn_channelTitle := Some ch;
                           sn_description := de |};
     sr_videoId := Some (Some vid) |}.

Definition call (kw : string) (d md retries timeout : Z) : args :=
  {| keyword := kw; max_results := 10; depth := d; max_depth := md;
     api_key := Some "key"%string; max_retries := retries;
     default_timeout := Int timeout |}.

End Worlds.

Import Worlds.

(* ------------------------------------------------------------------ *)
(** ** Worlds, answers and configurations of the examples *)

Definition tagged (t vid de : string) (d : Z) : video :=
  {| v_title := t;
     v_url := String.append "https://www.youtube.com/watch?v=" vid;
     v_channel := "c"; v_description := de; v_depth := d |}.

Definition no_description (t : string) : video :=
  {| v_title := t; v_url := ""; v_channel := ""; v_description := "";
     v_depth := 0 |}.

Definition untitled (de : string) : video :=
  {| v_title := ""; v_url := ""; v_channel := ""; v_description := de;
     v_depth := 0 |}.

(** The API is busy once. *)
Definition busy_once : script :=
  {| answers := [Failure (HttpError 503 "backendError")]; draws := [] |}.

(** The API is busy once and the generator draws its largest number. *)
Definition busy_once_draw_1000 : script :=
  {| answers := [Failure (HttpError 503 "backendError")]; draws := [1000] |}.

(** The quota is exhausted. *)
Definition quota_gone : script :=
  {| answers := [Failure (HttpError 403 "reason: quotaExceeded")];
     draws := [] |}.

(** The API is busy three times. *)
Definition busy_thrice : script :=
  {| answers := [Failure (HttpError 503 "backendError");
                 Failure (HttpError 500 "internalError");
                 Failure (HttpError 403 "rateLimitExceeded")];
     draws := [250; 0; 1000] |}.

(** A crawl of one level: the first attempt meets a busy API, the second
    gets two items; the keywords [a], [x], [y] of the first item are
    searched in turn (one video, quota exhaustion, nothing); the second
    item has no description. *)
Definition two_items : list search_result :=
  [item "A" "v1" "c" (Some "x y"%string); item "Z" "v2" "c" None].

Definition one_level : script :=
  {| answers := [Failure (HttpError 503 "backendError");
                 Response (Some two_items);
                 Response (Some [item "sub" "v3" "c" (Some "deep"%string)]);
                 Failure (HttpError 403 "quotaExceeded")];
     draws := [500] |}.

(** An API of three queries: [cats] gives one video with the title [a] and
    the description [b]; [a] and [b] give one video each; [busy] fails with
    a retryable error; any other query gives nothing. *)
Definition three_queries (q : string) : response :=
  if String.eqb q "cats" then Response (Some [item "a" "v0" "c" (Some "b"%string)])
  else if String.eqb q "a" then Response (Some [item "first" "v1" "c" None])
  else if String.eqb q "b" then Response (Some [item "second" "v2" "c" None])
  else if String.eqb q "busy" then Failure (HttpError 503 "backendError")
  else Response (Some []).

(** Two interpreter processes that enumerate sets in opposite orders. *)
Definition process_1 : Env :=
  keyed three_queries distinct distinct_NoDup distinct_In.
Definition process_2 : Env :=
  keyed three_queries distinct_rev distinct_rev_NoDup distinct_rev_In.

(** A configuration with every key, valid but for a budget of zero
    requests per second, which [validate_config] takes for valid. *)
Definition zero_rate : config :=
  [("api_key", VStr "key"); ("keywords", VList ["cats"]);
   ("max_results_per_keyword", VInt 10); ("requests_per_second", VInt 0);
   ("max_depth", VInt 2); ("max_retries", VInt 5);
   ("default_timeout", VInt 1)]%string.

(** A configuration whose backoff is NaN, which [json.load] reads from the
    token [NaN] and [validate_config] accepts: [nan < 0] is false. *)
Definition nan_timeout : config :=
  [("api_key", VStr "key"); ("keywords", VList ["cats"]);
   ("max_results_per_keyword", VInt 10); ("requests_per_second", VInt 2);
   ("max_depth", VInt 2); ("max_retries", VInt 5);
   ("default_timeout", VFloat NaN)]%string.

(** A configuration with a budget of one request in [10^10] seconds. *)
Definition slow_rate : config :=
  [("api_key", VStr "key"); ("keywords", VList ["cats"; "dogs"]);
   ("max_results_per_keyword", VInt 10);
   ("requests_per_second", VFloat (Finite (1 # 10000000000)));
   ("max_depth", VInt 2); ("max_retries", VInt 5);
   ("default_timeout", VInt 1)]%string.

(* ------------------------------------------------------------------ *)
(** ** Words and keywords *)

(** Every character of [s] passes [p]. *)
Fixpoint all_chars (p : ascii -> bool) (s : string) : bool :=
  match s with
  | EmptyString => true
  | String c s' => p c && all_chars p s'
  end.

(** A word character that [str.lower] leaves as it is. *)
Definition keyword_char (c : ascii) : bool :=
  Text.is_word c && Ascii.eqb (Text.lower_char c) c.

(** A keyword in lower case: one word or more characters, all of them word
    characters without a capital letter. *)
Definition is_token (s : string) : bool :=
  negb (Text.falsy s) && all_chars keyword_char s.

(** The record with its title and its description in lower case. *)
Definition lowered (v : video) : video :=
  {| v_title := Text.lower (v_title v); v_url := v_url v;
     v_channel := v_channel v;
     v_description := Text.lower (v_description v);
     v_depth := v_depth v |}.

(** No character of [s] is a word character. *)
Definition wordless (s : string) : bool :=
  all_chars (fun c => negb (Text.is_word c)) s.

(* ------------------------------------------------------------------ *)
(** ** Counting the events of a run *)

(** A line that closes a call: the log of line 123 or of line 142. *)
Definition is_closing (e : event) : bool :=
  match e with Found _ | NoVideos => true | _ => false end.

Definition calls (evs : list event) : nat := List.length (filter is_call evs).
Definition closings (evs : list event) : nat :=
  List.length (filter is_closing evs).

(** The seconds slept in a run. *)
Fixpoint total_sleep (evs : list event) : Q :=
  match evs with
  | [] => 0
  | Sleep _ t :: evs' => t + total_sleep evs'
  | _ :: evs' => total_sleep evs'
  end%Q.

(** The prefix of the address of a video. *)
Definition watch_prefix : string := "https://www.youtube.com/watch?v=".

(** A request of a run of the call [a0]: the cap is that of [a0] and the
    query is the keyword of [a0] or a keyword in lower case; a recursive
    call is made for a keyword in lower case. *)
Definition query_ok (a0 : args) (e : event) : Prop :=
  match e with
  | Query q m =>
      m = max_results a0 /\ (q = keyword a0 \/ is_token q = true)
  | Call _ callee => is_token (keyword callee) = true
  | _ => True
  end.

(** The events [evs] hold no more sleeps than requests and no more
    requests than [c], plus [r] for each recursive call. *)
Definition within_budget (r c : nat) (evs : list event) : Prop :=
  (sleeps evs <= queries evs)%nat /\ (queries evs <= c + r * calls evs)%nat.

(* ------------------------------------------------------------------ *)
(** ** The run of [main] *)

(** The call that [main] makes for a seed keyword, line 196. *)
Definition seed_call (c : config) (kw : string) : args :=
  {| keyword := kw;
     max_results := int_of (get c "max_results_per_keyword");
     depth := 0;
     max_depth := int_of (get c "max_depth");
     api_key := match get c "api_key" with VStr s => Some s | _ => None end;
     max_retries := int_of (get c "max_retries");
     default_timeout := number_of (get c "default_timeout") |}.

(** The seed keywords of a configuration. *)
Definition seeds (c : config) : list string :=
  match get c "keywords" with VList l => l | _ => [] end.

(** The pause between two seed keywords: [1 / requests_per_second] of
    line 188 as [time.sleep] takes it at line 209, or what one of the two
    raises. *)
Definition pause (E : Env) (c : config) : result Q :=
  bind (one_over (number_of (get c "requests_per_second"))) (time_sleep E).

(** The searches of the seed keywords one after the other, each followed
    by a pause of [p] seconds, with the result sequence of each. *)
Fixpoint seed_runs (E : Env) (c : config) (p : Q) (keywords : list string)
  : M E (list (list video)) :=
  fun w =>
  match keywords with
  | [] => ([], w, [])
  | kw :: rest =>
      let '(r, w1, e1) := search_videos_by_keyword E (seed_call c kw) w in
      let '(rs, w2, e2) := seed_runs E c p rest w1 in
      (videos_of r :: rs, w2, e1 ++ RateLimit p :: e2)
  end.

Definition is_rate_limit (e : event) : bool :=
  match e with RateLimit _ => true | _ => false end.

Definition rate_limits (evs : list event) : nat :=
  List.length (filter is_rate_limit evs).

(** What is saved by a run on the configuration [c]: videos with a watch
    address and a depth from 0 to [max_depth]. *)
Definition saved_ok (c : config) (e : event) : Prop :=
  match e with
  | Saved all_videos =>
      Forall (fun v => 0 <= v_depth v <= int_of (get c "max_depth")
                       /\ String.prefix watch_prefix (v_url v) = true)
             all_videos
  | _ => True
  end.

(** The configuration of the repository's test of [validate_config]. *)
Definition test_config : config :=
  [("api_key", VStr "valid_key"); ("keywords", VList ["keyword1"; "keyword2"]);
   ("max_results_per_keyword", VInt 10); ("requests_per_second", VInt 2);
   ("max_depth", VInt 3); ("max_retries", VInt 5);
   ("default_timeout", VFloat (Finite (3 # 2)))]%string.

(* ================================================================== *)
(** * Properties *)

(* ------------------------------------------------------------------ *)
(** ** The recursion: fuel, unfolding and induction *)

Section Recursion.

Context (E : Env).

Lemma sub_call_depth a kw : depth (sub_call a kw) = depth a + 1.
Proof. reflexivity. Qed.

(** The body looks at [rec] only on the calls of line 121, and only
    below [max_depth]. *)
Section Ext.

Variables rec1 rec2 : args -> M E (result (list video)).
Variable a : args.
Hypothesis agree : depth a < max_depth a ->
  forall kw w, rec1 (sub_call a kw) w = rec2 (sub_call a kw) w.

Lemma extend_related_ext (below : depth a < max_depth a) ks :
  forall videos w,
    extend_related rec1 a ks videos w = extend_related rec2 a ks videos w.
Proof.
  induction ks as [|kw ks IH]; intros videos w; simpl; [reflexivity|].
  rewrite (agree below).
  destruct (rec2 (sub_call a kw) w) as [[[found|e] w1] e1];
    [rewrite IH|]; reflexivity.
Qed.

Lemma process_items_ext items :
  forall videos w,
    process_items rec1 a items videos w = process_items rec2 a items videos w.
Proof.
  induction items as [|it items IH]; intros videos w; simpl; [reflexivity|].
  destruct (video_metadata (depth a) it) as [vm|e]; [|reflexivity].
  destruct (depth a <? max_depth a) eqn:G; [|apply IH].
  apply Z.ltb_lt in G. rewrite (extend_related_ext G).
  destruct (extend_related rec2 a _ _ w) as [[[[e|] videos2] w1] e1];
    [reflexivity|].
  rewrite IH. reflexivity.
Qed.

Lemma attempt_ext videos w :
  attempt rec1 a videos w = attempt rec2 a videos w.
Proof.
  unfold attempt.
  destruct (execute E (keyword a) (max_results a) w) as [[items|e] w1];
    [|reflexivity].
  rewrite process_items_ext. reflexivity.
Qed.

Lemma retry_loop_ext ns :
  forall videos w,
    retry_loop rec1 a ns videos w = retry_loop rec2 a ns videos w.
Proof.
  induction ns as [|n ns IH]; intros videos w; simpl; [reflexivity|].
  rewrite attempt_ext.
  destruct (attempt rec2 a videos w) as [[[[e|] videos'] w1] e1];
    [|reflexivity].
  destruct e; try reflexivity.
  destruct (quota_exceeded status content); [reflexivity|].
  destruct (retryable_status status); [|reflexivity].
  destruct (sleep_time E (default_timeout a) n w1) as [t w2].
  destruct (bind t (time_sleep E)); [|reflexivity].
  rewrite IH. reflexivity.
Qed.

Lemma search_body_ext w : search_body rec1 a w = search_body rec2 a w.
Proof.
  unfold search_body. destruct (truthy (api_key a)); [|reflexivity].
  apply retry_loop_ext.
Qed.

End Ext.

Lemma nesting_sub_call a kw (f : nat) :
  depth a < max_depth a -> (nesting a < S f)%nat ->
  (nesting (sub_call a kw) < f)%nat.
Proof. unfold nesting. simpl. lia. Qed.

(** More fuel than the nesting of calls changes nothing. *)
Lemma search_fuel f1 :
  forall f2 a w, (nesting a < f1)%nat -> (nesting a < f2)%nat ->
    search E f1 a w = search E f2 a w.
Proof.
  induction f1 as [|f1 IH]; intros f2 a w H1 H2; [lia|].
  destruct f2 as [|f2]; [lia|]. simpl.
  apply search_body_ext. intros below kw w'.
  apply IH; apply nesting_sub_call; assumption.
Qed.

(** The equation of the source function. *)
Lemma search_unfold a w :
  search_videos_by_keyword E a w
  = search_body (search_videos_by_keyword E) a w.
Proof.
  unfold search_videos_by_keyword at 1. simpl.
  apply search_body_ext. intros below kw w'.
  apply search_fuel; [|unfold nesting; lia].
  apply nesting_sub_call; [assumption|unfold nesting; lia].
Qed.

(** Induction on the calls: a property of every call follows when the
    body keeps it, given it for the calls of line 121. *)
Lemma search_induct
    (P : args -> result (list video) * World E * list event -> Prop) :
  (forall rec a w,
      (depth a < max_depth a ->
       forall kw w', P (sub_call a kw) (rec (sub_call a kw) w')) ->
      P a (search_body rec a w)) ->
  forall a w, P a (search_videos_by_keyword E a w).
Proof.
  intros step.
  assert (H : forall f a w, (nesting a < f)%nat -> P a (search E f a w)).
  { induction f as [|f IH]; intros a w Hf; [lia|]. simpl.
    apply step. intros below kw w'. apply IH.
    apply nesting_sub_call; assumption. }
  intros a w. apply H. unfold nesting. lia.
Qed.

End Recursion.

Lemma range_In m n : In n (range m) <-> 0 <= n < m.
Proof.
  unfold range. rewrite in_map_iff. split.
  - intros [k [Hk Hin]]. apply in_seq in Hin. lia.
  - intros H. exists (Z.to_nat n). split; [lia|]. apply in_seq. lia.
Qed.

(* ------------------------------------------------------------------ *)
(** ** Arithmetic of the backoff *)

Lemma jitter_bounds j : 0 <= j <= 1000 -> (0 <= j # 1000 <= 1)%Q.
Proof. intros H. unfold Qle. simpl. lia. Qed.

Lemma pow2_nonneg n : (0 <= inject_Z (2 ^ n))%Q.
Proof.
  change 0%Q with (inject_Z 0). rewrite <- Zle_Qle.
  destruct (Z.le_gt_cases 0 n) as [H|H].
  - apply Z.pow_nonneg. lia.
  - rewrite Z.pow_neg_r by lia. lia.
Qed.

Lemma backoff_bounds b n j :
  0 <= j <= 1000 ->
  (b * inject_Z (2 ^ n) <= backoff b n j <= b * inject_Z (2 ^ n) + 1)%Q.
Proof.
  intros H. destruct (jitter_bounds j H) as [H0 H1]. unfold backoff.
  split; lra.
Qed.

Lemma backoff_nonneg b n j :
  (0 <= b)%Q -> 0 <= j <= 1000 -> (0 <= backoff b n j)%Q.
Proof.
  intros Hb Hj.
  destruct (backoff_bounds b n j Hj) as [H _].
  pose proof (Qmult_le_0_compat _ _ Hb (pow2_nonneg n)) as H0.
  lra.
Qed.

(** The sleep of an attempt is no longer than the longest sleep of the
    last attempt. *)
Lemma backoff_le_last b n m j :
  (0 <= b)%Q -> 0 <= n < m -> 0 <= j <= 1000 ->
  (backoff b n j <= backoff b (m - 1) 1000)%Q.
Proof.
  intros Hb Hn Hj. unfold backoff.
  destruct (jitter_bounds j Hj) as [_ Hj1].
  assert (Hp : (inject_Z (2 ^ n) <= inject_Z (2 ^ (m - 1)))%Q).
  { rewrite <- Zle_Qle. apply Z.pow_le_mono_r; lia. }
  assert (Hm : (b * inject_Z (2 ^ n) <= b * inject_Z (2 ^ (m - 1)))%Q).
  { rewrite !(Qmult_comm b). apply Qmult_le_compat_r; assumption. }
  assert (H1 : (1000 # 1000 == 1)%Q) by reflexivity.
  lra.
Qed.

(* ------------------------------------------------------------------ *)
(** ** Lines 132 and 134: the length of a sleep and [time.sleep] *)

Section Sleeping.

Context (E : Env).

Lemma time_sleep_ok t q :
  time_sleep E t = Ok q <->
  t = Finite q /\ (0 <= q <= sleep_max E)%Q.
Proof.
  unfold time_sleep. destruct t as [x| |neg].
  - destruct (Qle_bool (- sleep_max E) x) eqn:Hlo;
      destruct (Qle_bool x (sleep_max E)) eqn:Hhi;
      destruct (Qle_bool 0 x) eqn:H0; simpl;
      (split; [intros H; try discriminate H | intros [Ht [Hx0 Hx1]]]).
    + inversion H. subst. split; [reflexivity|].
      split; apply Qle_bool_iff; assumption.
    + reflexivity || (inversion Ht; reflexivity).
    + inversion Ht. subst q. apply Qle_bool_iff in Hx0. congruence.
    + inversion Ht. subst q. apply Qle_bool_iff in Hx1. congruence.
    + inversion Ht. subst q. apply Qle_bool_iff in Hx1. congruence.
    + inversion Ht. subst q.
      pose proof (sleep_max_range E) as [Hr _].
      assert (Hl : (- sleep_max E <= x)%Q) by lra.
      apply Qle_bool_iff in Hl. congruence.
    + inversion Ht. subst q. apply Qle_bool_iff in Hx0. congruence.
    + inversion Ht. subst q. apply Qle_bool_iff in Hx1. congruence.
    + inversion Ht. subst q. apply Qle_bool_iff in Hx1. congruence.
  - split; [discriminate | intros [H _]; discriminate H].
  - split; [discriminate | intros [H _]; discriminate H].
Qed.

Lemma time_sleep_accepts q :
  (0 <= q <= sleep_max E)%Q -> time_sleep E (Finite q) = Ok q.
Proof. intros H. apply time_sleep_ok. split; [reflexivity | exact H]. Qed.

(** What [time.sleep] raises. *)
Lemma time_sleep_raises t e :
  time_sleep E t = Raise e -> e = OverflowError \/ exists msg, e = ValueError msg.
Proof.
  unfold time_sleep. destruct t as [x| |neg].
  - destruct (_ && _); [destruct (Qle_bool 0 x); [discriminate|]|];
      intros H; inversion H; eauto.
  - intros H; inversion H; eauto.
  - intros H; inversion H; eauto.
Qed.

Lemma sleep_time_raises x n w e w' :
  sleep_time E x n w = (Raise e, w') -> e = OverflowError.
Proof.
  unfold sleep_time. destruct x as [z|f].
  - destruct (randint E w) as [j w2].
    destruct (too_large_for_float _); intros H; inversion H; reflexivity.
  - destruct (too_large_for_float _); [intros H; inversion H; reflexivity|].
    destruct (randint E w) as [j w2]. discriminate.
Qed.

(** A sleep that is taken lasts the backoff of a finite number and a draw
    of the generator, and [time.sleep] has accepted that length. *)
Lemma slept_backoff x n w r w' q :
  sleep_time E x n w = (r, w') ->
  bind r (time_sleep E) = Ok q ->
  exists b j,
    seconds x = Some b /\ 0 <= j <= 1000 /\ q = backoff b n j
    /\ (0 <= backoff b n j <= sleep_max E)%Q.
Proof.
  intros Ht Hs. destruct r as [t|e]; [|discriminate Hs].
  simpl in Hs. apply time_sleep_ok in Hs.
  destruct Hs as [Hf Hr]. subst t.
  pose proof (randint_range E w) as Hj.
  unfold sleep_time in Ht. destruct x as [z|f].
  - destruct (randint E w) as [j w2]. simpl in Hj.
    destruct (too_large_for_float _); [discriminate|].
    inversion Ht. subst. exists (inject_Z z), j. repeat split; tauto || lia.
  - destruct (too_large_for_float _); [discriminate|].
    destruct (randint E w) as [j w2]. simpl in Hj.
    destruct f as [x| |neg]; try discriminate.
    inversion Ht. subst. exists x, j. repeat split; tauto || lia.
Qed.

Lemma too_large_small z :
  Z.abs z <= 2 ^ 1023 -> too_large_for_float z = false.
Proof.
  intros H. unfold too_large_for_float. apply Z.leb_gt.
  assert (H1 : 2 ^ 1023 < 2 ^ 1024 - 2 ^ 970) by reflexivity.
  lia.
Qed.

(** Under [backoff_ok] every attempt of the call computes its sleep and
    takes it. *)
Lemma backoff_ok_sleep a n w :
  backoff_ok E a = true -> In n (range (max_retries a)) ->
  exists b r,
    seconds (default_timeout a) = Some b /\
    sleep_time E (default_timeout a) n w = (r, snd (randint E w)) /\
    bind r (time_sleep E) = Ok (backoff b n (fst (randint E w))).
Proof.
  intros Hok Hn.
  cut (exists b,
    seconds (default_timeout a) = Some b /\
    sleep_time E (default_timeout a) n w
    = (Ok (Finite (backoff b n (fst (randint E w)))), snd (randint E w)) /\
    time_sleep E (Finite (backoff b n (fst (randint E w))))
    = Ok (backoff b n (fst (randint E w)))).
  { intros (b & Hb & Ht & Hs). exists b, (Ok (Finite (backoff b n (fst (randint E w))))).
    repeat split; assumption. }
  revert Hok Hn.
  intros Hok Hn. apply range_In in Hn.
  pose proof (randint_range E w) as Hj.
  pose proof (sleep_max_range E) as [_ Hmax].
  unfold backoff_ok in Hok. unfold sleep_time.
  destruct (default_timeout a) as [z|[q| |neg]]; try discriminate.
  - apply andb_prop in Hok. destruct Hok as [Hz Hlast].
    apply Z.leb_le in Hz. apply Qle_bool_iff in Hlast.
    assert (Hb : (0 <= inject_Z z)%Q)
      by (change 0%Q with (inject_Z 0); rewrite <- Zle_Qle; exact Hz).
    exists (inject_Z z). split; [reflexivity|].
    destruct (randint E w) as [j w2]. simpl in Hj. simpl fst. simpl snd.
    pose proof (backoff_le_last _ n (max_retries a) j Hb Hn Hj) as Hle.
    pose proof (backoff_nonneg _ n j Hb Hj) as H0.
    destruct (backoff_bounds (inject_Z z) n j Hj) as [Hlo _].
    assert (Hsmall : too_large_for_float (z * 2 ^ n) = false).
    { apply too_large_small.
      assert (Hq : (inject_Z (z * 2 ^ n) <= inject_Z 9223372037)%Q).
      { rewrite inject_Z_mult. change (inject_Z 9223372037) with 9223372037%Q.
        lra. }
      rewrite <- Zle_Qle in Hq.
      assert (0 <= z * 2 ^ n) by (apply Z.mul_nonneg_nonneg; [lia|];
                                  apply Z.pow_nonneg; lia).
      assert (9223372037 <= 2 ^ 1023) by (apply Z.leb_le; reflexivity).
      lia. }
    rewrite Hsmall. split; [reflexivity|].
    apply time_sleep_accepts. split; lra.
  - apply andb_prop in Hok. destruct Hok as [Hok Hm].
    apply andb_prop in Hok. destruct Hok as [Hb Hlast].
    apply Qle_bool_iff in Hb. apply Qle_bool_iff in Hlast.
    apply Z.leb_le in Hm.
    exists q. split; [reflexivity|].
    assert (Hsmall : too_large_for_float (2 ^ n) = false).
    { apply too_large_small.
      assert (0 <= 2 ^ n) by (apply Z.pow_nonneg; lia).
      assert (2 ^ n <= 2 ^ 1023) by (apply Z.pow_le_mono_r; lia).
      lia. }
    rewrite Hsmall.
    destruct (randint E w) as [j w2]. simpl in Hj. simpl fst. simpl snd.
    pose proof (backoff_le_last _ n (max_retries a) j Hb Hn Hj) as Hle.
    pose proof (backoff_nonneg _ n j Hb Hj) as H0.
    split; [reflexivity|].
    apply time_sleep_accepts. split; lra.
Qed.

End Sleeping.

(** A [float] backoff, even zero, cannot be multiplied by [2 ** 1024]: the
    product raises before the draw of the jitter.  An [int] backoff of
    zero can. *)
Example float_backoff_attempt_1024 (E : Env) (w : World E) :
  sleep_time E (Float (Finite 0)) 1024 w = (Raise OverflowError, w) /\
  sleep_time E (Float (Finite 0)) 1023 w
  = (Ok (Finite (backoff 0 1023 (fst (randint E w)))), snd (randint E w)) /\
  sleep_time E (Int 0) 1024 w
  = (Ok (Finite (backoff 0 1024 (fst (randint E w)))), snd (randint E w)).
Proof.
  unfold sleep_time.
  assert (H1 : too_large_for_float (2 ^ 1024) = true) by reflexivity.
  assert (H2 : too_large_for_float (2 ^ 1023) = false) by reflexivity.
  assert (H3 : too_large_for_float (0 * 2 ^ 1024) = false) by reflexivity.
  rewrite H1, H2, H3. destruct (randint E w) as [j w']. repeat split.
Qed.

(* ------------------------------------------------------------------ *)
(** ** Invariants of the events and of the videos of a call *)

Section Invariant.

Context (E : Env).

(** [Pe a e]: the event [e] is allowed in a call with arguments [a];
    [Pv a v]: the video [v] is allowed in what that call returns. *)
Variable Pe : args -> event -> Prop.
Variable Pv : args -> video -> Prop.

Hypothesis Pe_sub : forall a kw e,
  depth a < max_depth a -> Pe (sub_call a kw) e -> Pe a e.
Hypothesis Pv_sub : forall a kw v,
  depth a < max_depth a -> Pv (sub_call a kw) v -> Pv a v.
Hypothesis Pe_query : forall a, Pe a (Query (keyword a) (max_results a)).
Hypothesis Pe_call : forall a kw,
  depth a < max_depth a -> Pe a (Call a (sub_call a kw)).
Hypothesis Pe_sleep : forall a n j b,
  In n (range (max_retries a)) -> 0 <= j <= 1000 ->
  seconds (default_timeout a) = Some b ->
  (0 <= backoff b n j <= sleep_max E)%Q ->
  Pe a (Sleep n (backoff b n j)).
Hypothesis Pe_found : forall a c, Pe a (Found c).
Hypothesis Pe_novideos : forall a, Pe a NoVideos.
Hypothesis Pv_item : forall a search_result v,
  video_metadata (depth a) search_result = Ok v -> Pv a v.

Section Step.

Variable rec : args -> M E (result (list video)).
Variable a : args.
Hypothesis IH : depth a < max_depth a ->
  forall kw w, inv_run Pe Pv (sub_call a kw) (rec (sub_call a kw) w).

Lemma extend_related_inv (below : depth a < max_depth a) ks :
  forall videos w, Forall (Pv a) videos ->
    inv_body Pe Pv a (extend_related rec a ks videos w).
Proof.
  induction ks as [|kw ks IHks]; intros videos w Hv; simpl.
  - split; [constructor | exact Hv].
  - destruct (IH below kw w) as [He Hr].
    destruct (rec (sub_call a kw) w) as [[[found|e] w1] e1];
      unfold events_of, returned in He, Hr; simpl in He, Hr.
    + assert (Hv' : Forall (Pv a) (videos ++ found)).
      { apply Forall_app. split; [exact Hv|].
        eapply Forall_impl; [|exact Hr]. intros v. apply Pv_sub; exact below. }
      destruct (IHks (videos ++ found) w1 Hv') as [He2 Hv2].
      destruct (extend_related rec a ks (videos ++ found) w1)
        as [[st w2] e2]; simpl in *.
      split; [|exact Hv2].
      constructor; [apply Pe_call; exact below|].
      apply Forall_app. split; [|exact He2].
      eapply Forall_impl; [|exact He]. intros e. apply Pe_sub; exact below.
    + split; [|exact Hv]. simpl.
      constructor; [apply Pe_call; exact below|].
      eapply Forall_impl; [|exact He]. intros e'. apply Pe_sub; exact below.
Qed.

Lemma process_items_inv items :
  forall videos w, Forall (Pv a) videos ->
    inv_body Pe Pv a (process_items rec a items videos w).
Proof.
  induction items as [|it items IHit]; intros videos w Hv; simpl.
  - split; [constructor | exact Hv].
  - destruct (video_metadata (depth a) it) as [vm|e] eqn:Hvm.
    2:{ split; [constructor | exact Hv]. }
    assert (Hv1 : Forall (Pv a) (videos ++ [vm])).
    { apply Forall_app. split; [exact Hv|].
      constructor; [eapply Pv_item; exact Hvm | constructor]. }
    destruct (depth a <? max_depth a) eqn:G; [|apply IHit; exact Hv1].
    apply Z.ltb_lt in G.
    destruct (extend_related_inv G (extract_related_keywords E vm)
                (videos ++ [vm]) w Hv1) as [He1 Hv2].
    destruct (extend_related rec a _ _ w) as [[[[e|] videos2] w1] e1];
      simpl in *.
    + split; assumption.
    + destruct (IHit videos2 w1 Hv2) as [He2 Hv3].
      destruct (process_items rec a items videos2 w1) as [[st w2] e2];
        simpl in *.
      split; [apply Forall_app; split; assumption | exact Hv3].
Qed.

Lemma attempt_inv videos w :
  Forall (Pv a) videos -> inv_body Pe Pv a (attempt rec a videos w).
Proof.
  intros Hv. unfold attempt.
  destruct (execute E (keyword a) (max_results a) w) as [[items|e] w1].
  - destruct (process_items_inv (match items with Some l => l | None => [] end)
                videos w1 Hv) as [He Hv'].
    destruct (process_items rec a _ videos w1) as [[[[e|] videos'] w2] e2];
      simpl in *.
    + split; [constructor; [apply Pe_query | exact He] | exact Hv'].
    + split; [|exact Hv'].
      constructor; [apply Pe_query|].
      apply Forall_app. split; [exact He|].
      constructor; [apply Pe_found | constructor].
  - split; [|exact Hv]. simpl. constructor; [apply Pe_query | constructor].
Qed.

Lemma retry_loop_inv ns :
  incl ns (range (max_retries a)) ->
  forall videos w, Forall (Pv a) videos ->
    inv_run Pe Pv a (retry_loop rec a ns videos w).
Proof.
  induction ns as [|n ns IHns]; intros Hns videos w Hv; simpl.
  - split; [|exact Hv]. simpl. constructor; [apply Pe_novideos | constructor].
  - assert (Hn : In n (range (max_retries a))) by (apply Hns; left; reflexivity).
    assert (Hns' : incl ns (range (max_retries a))).
    { intros x Hx. apply Hns. right. exact Hx. }
    destruct (attempt_inv videos w Hv) as [He1 Hv1].
    assert (Hbreak : inv_run Pe Pv a (Ok (snd (fst (fst (attempt rec a videos w)))),
                                snd (fst (attempt rec a videos w)),
                                snd (attempt rec a videos w) ++ [NoVideos])).
    { split; [|exact Hv1]. unfold events_of. simpl.
      apply Forall_app. split; [exact He1|].
      constructor; [apply Pe_novideos | constructor]. }
    destruct (attempt rec a videos w) as [[[[e|] videos'] w1] e1];
      simpl in *; [|split; assumption].
    destruct e; try exact Hbreak.
    destruct (quota_exceeded status content); [exact Hbreak|].
    destruct (retryable_status status); [|exact Hbreak].
    destruct (sleep_time E (default_timeout a) n w1) as [t w2] eqn:Ht.
    destruct (bind t (time_sleep E)) as [slept|x] eqn:Hs.
    + destruct (slept_backoff E _ _ _ _ _ _ Ht Hs) as (b & j & Hb & Hj & Hq & Hr).
      subst slept.
      destruct (IHns Hns' videos' w2 Hv1) as [He3 Hv3].
      destruct (retry_loop rec a ns videos' w2) as [[r w3] e3].
      unfold events_of, returned in *. simpl in *.
      split; [|exact Hv3].
      apply Forall_app. split; [exact He1|].
      constructor; [apply Pe_sleep; assumption | exact He3].
    + split; [exact He1 | constructor].
Qed.

Lemma search_body_inv w : inv_run Pe Pv a (search_body rec a w).
Proof.
  unfold search_body. destruct (truthy (api_key a)).
  - apply retry_loop_inv; [apply incl_refl | constructor].
  - split; constructor.
Qed.

End Step.

(** Every event of a call is allowed, and every video it returns. *)
Lemma run_invariant a w : inv_run Pe Pv a (search_videos_by_keyword E a w).
Proof.
  revert a w. apply search_induct. intros rec a w IH.
  apply search_body_inv. exact IH.
Qed.

End Invariant.

(* ------------------------------------------------------------------ *)
(** ** What a call can raise *)

Section Raises.

Context (E : Env).

Variable rec : args -> M E (result (list video)).
Variable a : args.

(** With a backoff whose sleeps [time.sleep] accepts the retry loop
    returns. *)
Lemma retry_loop_returns ns :
  backoff_ok E a = true -> incl ns (range (max_retries a)) ->
  forall videos w, exists vs, returned (retry_loop rec a ns videos w) = Ok vs.
Proof.
  intros Hb. induction ns as [|n ns IH]; intros Hns videos w; simpl.
  - exists videos. reflexivity.
  - assert (Hn : In n (range (max_retries a))) by (apply Hns; left; reflexivity).
    assert (Hns' : incl ns (range (max_retries a))).
    { intros x Hx. apply Hns. right. exact Hx. }
    destruct (attempt rec a videos w) as [[[[e|] videos'] w1] e1];
      [|exists videos'; reflexivity].
    destruct e; try (exists videos'; reflexivity).
    destruct (quota_exceeded status content); [exists videos'; reflexivity|].
    destruct (retryable_status status); [|exists videos'; reflexivity].
    destruct (backoff_ok_sleep E a n w1 Hb Hn) as (b & r & _ & Ht & Hs).
    rewrite Ht, Hs.
    destruct (IH Hns' videos' (snd (randint E w1))) as [vs Hvs].
    destruct (retry_loop rec a ns videos' _) as [[r' w3] e3].
    exists vs. exact Hvs.
Qed.

Lemma search_body_returns w :
  truthy (api_key a) = true -> backoff_ok E a = true ->
  exists vs, returned (search_body rec a w) = Ok vs.
Proof.
  intros Hk Hb. unfold search_body. rewrite Hk.
  apply retry_loop_returns; [exact Hb | apply incl_refl].
Qed.

(** The exceptions that leave the body are those of lines 85, 132 and
    134. *)
Lemma retry_loop_raises ns :
  forall videos w e, returned (retry_loop rec a ns videos w) = Raise e ->
    e = OverflowError \/ exists msg, e = ValueError msg.
Proof.
  induction ns as [|n ns IH]; intros videos w e; simpl; [discriminate|].
  destruct (attempt rec a videos w) as [[[[x|] videos'] w1] e1];
    [|discriminate].
  destruct x; try discriminate.
  destruct (quota_exceeded status content); [discriminate|].
  destruct (retryable_status status); [|discriminate].
  destruct (sleep_time E (default_timeout a) n w1) as [[t|x] w2] eqn:Ht.
  - simpl. destruct (time_sleep E t) as [slept|x] eqn:Hs.
    + specialize (IH videos' w2 e).
      destruct (retry_loop rec a ns videos' w2) as [[r w3] e3]. exact IH.
    + unfold returned. simpl. intros H. inversion H. subst x.
      apply (time_sleep_raises E t e Hs).
  - unfold returned. simpl. intros H. inversion H. subst x.
    left. apply (sleep_time_raises E _ _ _ _ _ Ht).
Qed.

Lemma search_body_raises w e :
  returned (search_body rec a w) = Raise e ->
  e = OverflowError \/ exists msg, e = ValueError msg.
Proof.
  unfold search_body. destruct (truthy (api_key a)).
  - apply retry_loop_raises.
  - unfold returned. simpl. intros H. inversion H. eauto.
Qed.

End Raises.

(** A call returns when the key is there and the sleeps of its backoff are
    lengths that [time.sleep] accepts. *)
Lemma search_returns E a w :
  truthy (api_key a) = true -> backoff_ok E a = true ->
  exists vs, returned (search_videos_by_keyword E a w) = Ok vs.
Proof.
  intros Hk Hb. rewrite search_unfold. apply search_body_returns; assumption.
Qed.

Lemma video_metadata_depth d search_result v :
  video_metadata d search_result = Ok v -> v_depth v = d.
Proof.
  unfold video_metadata.
  destruct (sr_snippet search_result) as [sn|]; [|discriminate].
  destruct (sn_title sn); [|discriminate].
  destruct (sr_videoId search_result) as [[vid|]|]; try discriminate.
  destruct (sn_channelTitle sn); [|discriminate].
  intros H. inversion H. reflexivity.
Qed.

(* ------------------------------------------------------------------ *)
(** ** Depth of the recursion *)

Lemma same_settings_refl x : same_settings x x.
Proof. repeat split. Qed.

Lemma call_ok_sub a kw e :
  depth a < max_depth a -> call_ok (sub_call a kw) e -> call_ok a e.
Proof.
  intros below. destruct e; simpl; trivial.
  unfold same_settings. simpl. intuition lia.
Qed.

Lemma depth_ok_sub a kw v :
  depth a < max_depth a -> depth_ok (sub_call a kw) v -> depth_ok a v.
Proof. unfold depth_ok. simpl. lia. Qed.

(** C1.  In a run of any call [a], every recursive call is issued from a
    frame whose depth is strictly below [max_depth], with that depth plus
    one and the same [max_results], [max_depth], [api_key], [max_retries]
    and [default_timeout]; a call whose depth is [max_depth] issues none,
    whatever the keywords; and the depth tag of every returned video is at
    least the depth of the call and at most the larger of that depth and
    [max_depth]: for a call that starts at or below [max_depth], as every
    call of the program does, it lies between the depth of the call and
    [max_depth]. *)
Theorem C1_depth_bounded_recursion (E : Env) (a : args) (w : World E) :
  Forall (call_ok a) (events_of (search_videos_by_keyword E a w)) /\
  (depth a = max_depth a ->
   Forall (fun e => is_call e = false)
          (events_of (search_videos_by_keyword E a w))) /\
  Forall (depth_ok a) (videos_of (returned (search_videos_by_keyword E a w))) /\
  (depth a <= max_depth a ->
   Forall (fun v => depth a <= v_depth v <= max_depth a)
          (videos_of (returned (search_videos_by_keyword E a w)))).
Proof.
  assert (H : inv_run call_ok depth_ok a (search_videos_by_keyword E a w)).
  { apply run_invariant.
    - exact call_ok_sub.
    - exact depth_ok_sub.
    - intros; exact I.
    - intros a0 kw below. simpl. unfold same_settings. simpl.
      intuition lia.
    - intros; exact I.
    - intros; exact I.
    - intros; exact I.
    - intros a0 sr v Hv. apply video_metadata_depth in Hv.
      unfold depth_ok. lia. }
  destruct H as [He Hv]. split; [exact He|]. split; [|split; [exact Hv|]].
  - intros Heq. eapply Forall_impl; [|exact He].
    intros e Hok. destruct e; try reflexivity. simpl in Hok.
    destruct Hok as (Hlt & _ & _ & (_ & Hmd & _) & Hle). lia.
  - intros Hle. eapply Forall_impl; [|exact Hv].
    intros v. unfold depth_ok. lia.
Qed.

(** At depth [max_depth] an answer with a description is not expanded. *)
Lemma C1_depth_bounded_recursion_witness :
  Forall (fun e => is_call e = false)
    (events_of (search_videos_by_keyword scripted (call "cats" 2 2 1 1)
       {| answers := [Response (Some [item "A" "v1" "c" (Some "x y"%string)])];
          draws := [] |})).
Proof.
  refine (proj1 (proj2 (C1_depth_bounded_recursion scripted
                          (call "cats" 2 2 1 1) _)) _).
  reflexivity.
Defined.

(* ------------------------------------------------------------------ *)
(** ** The keyword extractor *)

(** The record of the repository's test: every lowercase word of the
    title and of the description, once. *)
Example extract_tutorial :
  extract_related_keywords scripted
    {| v_title := "Python Programming Tutorial"; v_url := ""; v_channel := "";
       v_description := "Learn Python programming from scratch in this tutorial.";
       v_depth := 0 |}
  = ["learn"; "python"; "programming"; "from"; "scratch"; "in"; "this";
     "tutorial"]%string.
Proof. reflexivity. Qed.

(** In any environment the keywords of that record are these eight words,
    in the order of the environment. *)
Lemma extract_tutorial_set (E : Env) (x : string) :
  In x (extract_related_keywords E
          {| v_title := "Python Programming Tutorial"; v_url := "";
             v_channel := "";
             v_description :=
               "Learn Python programming from scratch in this tutorial.";
             v_depth := 0 |})
  <-> In x ["python"; "programming"; "tutorial"; "learn"; "from"; "scratch";
            "in"; "this"]%string.
Proof.
  unfold extract_related_keywords. cbn [v_title v_description Text.falsy].
  rewrite set_list_In. vm_compute. tauto.
Qed.

Example findall_words_runs :
  Text.findall_words (Text.lower "Hello, World_1!  x--y")
  = ["hello"; "world_1"; "x"; "y"]%string.
Proof. reflexivity. Qed.

(** C3, as stated, fails: a record with an empty title and the description
    [hello] is a degenerate input in the sense of the claim, and the
    extractor returns the keyword [hello] for it. *)
Lemma C3_empty_title_counterexample :
  extract_related_keywords scripted (untitled "hello") = ["hello"%string] /\
  ~ (forall (E : Env) (v : video),
       v_title v = EmptyString \/ v_description v = EmptyString ->
       extract_related_keywords E v = []).
Proof.
  split; [reflexivity|].
  intros H.
  specialize (H scripted (untitled "hello") (or_introl eq_refl)).
  discriminate H.
Qed.

(** C3, amended.  The extractor is a total function of a record whose
    title and description are texts.  On an empty description it returns no
    keyword, whatever the title, the empty one included; a description that
    the API left out reaches it as the empty text and is pruned the same
    way; and on an empty title with a description that is not empty it
    returns the words of the description. *)
Theorem C3_extractor_prunes_on_empty_description (E : Env) :
  (forall v, v_description v = EmptyString ->
     extract_related_keywords E v = []) /\
  (forall d search_result sn v,
     sr_snippet search_result = Some sn -> sn_description sn = None ->
     video_metadata d search_result = Ok v ->
     v_description v = EmptyString /\ extract_related_keywords E v = []) /\
  (forall v, v_title v = EmptyString ->
     extract_related_keywords E v
     = if Text.falsy (v_description v) then []
       else set_list E (Text.findall_words (Text.lower (v_description v)))).
Proof.
  assert (Hempty : forall v, v_description v = EmptyString ->
                     extract_related_keywords E v = []).
  { intros v Hd. unfold extract_related_keywords. rewrite Hd. reflexivity. }
  split; [exact Hempty|]. split.
  - intros d sr sn v Hsn Hde Hv.
    assert (Hd : v_description v = EmptyString).
    { unfold video_metadata in Hv. rewrite Hsn, Hde in Hv.
      destruct (sn_title sn); [|discriminate].
      destruct (sr_videoId sr) as [[vid|]|]; try discriminate.
      destruct (sn_channelTitle sn); [|discriminate].
      inversion Hv. reflexivity. }
    split; [exact Hd | apply Hempty; exact Hd].
  - intros v Ht. unfold extract_related_keywords. rewrite Ht.
    destruct (Text.falsy (v_description v)); reflexivity.
Qed.

(** The example of the specification: the title is there, the description
    is empty. *)
Lemma C3_extractor_prunes_on_empty_description_witness :
  extract_related_keywords scripted
    (no_description "Python Programming Tutorial") = [].
Proof.
  apply (proj1 (C3_extractor_prunes_on_empty_description scripted)).
  reflexivity.
Defined.

(* ------------------------------------------------------------------ *)
(** ** No exception leaves a call *)




(* ------------------------------------------------------------------ *)
(** ** The length of a backoff sleep *)

(** C6, as stated, fails: with a backoff of one second, attempt 0 and the
    draw 1000, the sleep lasts [1 * 2^0 + 1000/1000 = 2] seconds, which is
    not below [1 * 2^0 + 1]. *)
Lemma C6_jitter_counterexample :
  events_of (search_videos_by_keyword scripted (call "cats" 0 1 1 1)
               busy_once_draw_1000)
  = [Query "cats" 10; Sleep 0 (backoff 1 0 1000); NoVideos] /\
  (backoff 1 0 1000 == 2)%Q /\
  ~ (forall (E : Env) (a : args) (w : World E),
       Forall (sleep_half_open a)
              (events_of (search_videos_by_keyword E a w))).
Proof.
  split; [reflexivity|]. split; [reflexivity|].
  intros H.
  specialize (H scripted (call "cats" 0 1 1 1) busy_once_draw_1000).
  change (Forall (sleep_half_open (call "cats" 0 1 1 1))
            [Query "cats" 10; Sleep 0 (backoff 1 0 1000); NoVideos]) in H.
  rewrite Forall_forall in H.
  specialize (H (Sleep 0 (backoff 1 0 1000)) (or_intror (or_introl eq_refl))).
  destruct (H 1%Q eq_refl) as [_ H']. vm_compute in H'. discriminate H'.
Qed.

(** C6, amended.  Every sleep of a run is taken in an attempt [n] with
    [0 <= n < max_retries] and lasts [b * 2^n + j / 1000] seconds for an
    integer [j] from 0 to 1000, where [b] is [default_timeout]: it lies in
    the closed interval from [b * 2^n] to [b * 2^n + 1], the jitter being
    at most one second. *)
Theorem C6_backoff_closed_interval (E : Env) (a : args) (w : World E) :
  Forall (sleep_closed a) (events_of (search_videos_by_keyword E a w)).
Proof.
  assert (H : inv_run sleep_closed (fun _ _ => True) a
                (search_videos_by_keyword E a w)).
  { apply run_invariant; try (intros; exact I).
    - intros a0 kw e _. destruct e; simpl; trivial.
    - intros a0 n j b Hn Hj Hb _. simpl. split; [apply range_In; exact Hn|].
      exists b. split; [exact Hb|].
      split; [exists j; split; [exact Hj | reflexivity]|].
      apply backoff_bounds. exact Hj. }
  exact (proj1 H).
Qed.

(* ------------------------------------------------------------------ *)
(** ** Attempts that fail and are retried *)

Section Attempts.

Context (E : Env).
Variable a : args.

Variable rec : args -> M E (result (list video)).

Lemma attempt_failure videos w e w1 :
  execute E (keyword a) (max_results a) w = (Failure e, w1) ->
  attempt rec a videos w
  = ((Some e, videos), w1, [Query (keyword a) (max_results a)]).
Proof. intros H. unfold attempt. rewrite H. reflexivity. Qed.

(** The attempts that fail and are retried leave [videos] as it was. *)
Lemma retry_loop_after_failures ns :
  forall rest videos w wk ev,
    after_failures a ns w = Some (wk, ev) ->
    retry_loop rec a (ns ++ rest) videos w
    = let '(r, w', e) := retry_loop rec a rest videos wk in (r, w', ev ++ e).
Proof.
  induction ns as [|n ns IH]; intros rest videos w wk ev H; simpl in H.
  - inversion H. subst. simpl.
    destruct (retry_loop rec a rest videos wk) as [[r w'] e]. reflexivity.
  - destruct (execute E (keyword a) (max_results a) w) as [[items|e] w1] eqn:Hx;
      [discriminate|].
    destruct e; try discriminate.
    destruct (quota_exceeded status content) eqn:Hq; [discriminate|].
    destruct (retryable_status status) eqn:Hr; [|discriminate].
    simpl in H.
    destruct (sleep_time E (default_timeout a) n w1) as [t w2] eqn:Ht.
    destruct (bind t (time_sleep E)) as [slept|x] eqn:Hs; [|discriminate].
    destruct (after_failures a ns w2) as [[w' e']|] eqn:Hns; [|discriminate].
    inversion H. subst. clear H.
    change ((n :: ns) ++ rest) with (n :: (ns ++ rest)).
    cbn [retry_loop]. rewrite (attempt_failure videos w _ _ Hx).
    rewrite Hq, Hr, Ht, Hs.
    rewrite (IH rest videos w2 wk e' Hns).
    destruct (retry_loop rec a rest videos wk) as [[r w3] e3]. reflexivity.
Qed.

(** A failure that is not retried ends the loop at once: no sleep, no
    other request, and [videos] is returned as it is. *)
Lemma retry_loop_stops n rest videos w e w1 :
  execute E (keyword a) (max_results a) w = (Failure e, w1) ->
  stops e = true ->
  retry_loop rec a (n :: rest) videos w
  = (Ok videos, w1, [Query (keyword a) (max_results a); NoVideos]).
Proof.
  intros Hx Hs. cbn [retry_loop]. rewrite (attempt_failure videos w _ _ Hx).
  destruct e; try reflexivity.
  simpl in Hs. destruct (quota_exceeded status content); [reflexivity|].
  destruct (retryable_status status); [discriminate | reflexivity].
Qed.

End Attempts.

Lemma range_split (k : nat) m :
  Z.of_nat k <= m -> range m = range (Z.of_nat k) ++ range_from k m.
Proof.
  intros H. unfold range, range_from. rewrite Nat2Z.id.
  rewrite <- map_app. f_equal.
  replace (Z.to_nat m) with (k + (Z.to_nat m - k))%nat at 1 by lia.
  apply seq_app.
Qed.

Lemma range_from_cons (k : nat) m :
  Z.of_nat k < m -> range_from k m = Z.of_nat k :: range_from (S k) m.
Proof.
  intros H. unfold range_from.
  replace (Z.to_nat m - k)%nat with (S (Z.to_nat m - S k)) by lia.
  reflexivity.
Qed.

Lemma after_failures_sleeps E a ns :
  forall (w wk : World E) ev,
    after_failures a ns w = Some (wk, ev) ->
    sleeps ev = List.length ns /\ queries ev = List.length ns.
Proof.
  induction ns as [|n ns IH]; intros w wk ev H; simpl in H.
  - inversion H. split; reflexivity.
  - destruct (execute E (keyword a) (max_results a) w) as [[items|e] w1];
      [discriminate|].
    destruct e; try discriminate.
    destruct (negb (quota_exceeded status content) && retryable_status status);
      [|discriminate].
    destruct (sleep_time E (default_timeout a) n w1) as [t w2].
    destruct (bind t (time_sleep E)) as [slept|x]; [|discriminate].
    destruct (after_failures a ns w2) as [[w' e']|] eqn:Hns; [|discriminate].
    inversion H. subst. destruct (IH _ _ _ Hns) as [Hs Hq].
    unfold sleeps, queries in *. simpl. split; congruence.
Qed.

(** Against an API that fails every request of the call with an error that
    is retried, and with sleeps that [time.sleep] accepts, the attempts
    fail and are retried one after the other. *)
Lemma always_retryable_failures E a ns :
  always_retryable E a -> backoff_ok E a = true ->
  incl ns (range (max_retries a)) ->
  forall w : World E, exists wk ev, after_failures a ns w = Some (wk, ev).
Proof.
  intros Hbusy Hb. induction ns as [|n ns IH]; intros Hns w; simpl.
  - exists w, []. reflexivity.
  - assert (Hn : In n (range (max_retries a))) by (apply Hns; left; reflexivity).
    assert (Hns' : incl ns (range (max_retries a))).
    { intros x Hx. apply Hns. right. exact Hx. }
    destruct (Hbusy w) as (status & content & w1 & Hx & Hq & Hr).
    rewrite Hx, Hq, Hr. simpl.
    destruct (backoff_ok_sleep E a n w1 Hb Hn) as (b & r & _ & Ht & Hs).
    rewrite Ht, Hs.
    destruct (IH Hns' (snd (randint E w1))) as (wk & ev & Hf).
    rewrite Hf. eauto.
Qed.

(** A call whose first [k] attempts fail and are retried goes on with
    attempt [k] on the same empty list. *)
Lemma search_after_failures E a (k : nat) (w wk : World E) evk :
  truthy (api_key a) = true ->
  Z.of_nat k < max_retries a ->
  after_failures a (range (Z.of_nat k)) w = Some (wk, evk) ->
  search_videos_by_keyword E a w
  = let '(r, w', e) :=
      retry_loop (search_videos_by_keyword E) a
        (Z.of_nat k :: range_from (S k) (max_retries a)) [] wk in
    (r, w', evk ++ e).
Proof.
  intros Hk Hlt Hf. rewrite search_unfold. unfold search_body. rewrite Hk.
  rewrite (range_split k (max_retries a)) by lia.
  rewrite (retry_loop_after_failures E a _ _ _ [] w wk evk Hf).
  rewrite (range_from_cons k (max_retries a) Hlt). reflexivity.
Qed.

(** A call all of whose attempts fail and are retried. *)
Lemma search_exhausted E a (w w' : World E) ev :
  truthy (api_key a) = true ->
  after_failures a (range (max_retries a)) w = Some (w', ev) ->
  search_videos_by_keyword E a w = (Ok [], w', ev ++ [NoVideos]).
Proof.
  intros Hk Hf. rewrite search_unfold. unfold search_body. rewrite Hk.
  rewrite <- (app_nil_r (range (max_retries a))).
  rewrite (retry_loop_after_failures E a _ _ [] [] w w' ev Hf). reflexivity.
Qed.

(* ------------------------------------------------------------------ *)
(** ** Quota exhaustion *)

(** C5.  Let the first [k] attempts of a call fail and be retried, and let
    attempt [k] meet the 403 whose content has [quotaExceeded].  Then the
    retry loop stops there, whatever list it has accumulated, and returns
    that list with no other request and no sleep; the call returns the
    empty sequence after [k + 1] requests and [k] sleeps in all.  For
    [k = 0], quota exhaustion in the first attempt, the one request is all
    the call does. *)
Theorem C5_quota_exhaustion_stops_retrying
    (E : Env) (a : args) (k : nat) (w wk w1 : World E)
    (evk : list event) (content : string) :
  truthy (api_key a) = true ->
  Z.of_nat k < max_retries a ->
  after_failures a (range (Z.of_nat k)) w = Some (wk, evk) ->
  execute E (keyword a) (max_results a) wk
  = (Failure (HttpError 403 content), w1) ->
  Text.contains "quotaExceeded" content = true ->
  (forall rec n rest videos,
      retry_loop rec a (n :: rest) videos wk
      = (Ok videos, w1, [Query (keyword a) (max_results a); NoVideos])) /\
  search_videos_by_keyword E a w
  = (Ok [], w1, evk ++ [Query (keyword a) (max_results a); NoVideos]) /\
  queries (events_of (search_videos_by_keyword E a w)) = S k /\
  sleeps (events_of (search_videos_by_keyword E a w)) = k.
Proof.
  intros Hk Hlt Hf Hx Hc.
  assert (Hs : stops (HttpError 403 content) = true).
  { simpl. unfold quota_exceeded. rewrite Hc. reflexivity. }
  assert (Hrun : search_videos_by_keyword E a w
                 = (Ok [], w1,
                    evk ++ [Query (keyword a) (max_results a); NoVideos])).
  { rewrite (search_after_failures E a k w wk evk Hk Hlt Hf).
    rewrite (retry_loop_stops E a _ _ _ [] wk _ w1 Hx Hs). reflexivity. }
  assert (Hlen : List.length (range (Z.of_nat k)) = k).
  { unfold range. rewrite length_map, length_seq, Nat2Z.id. reflexivity. }
  destruct (after_failures_sleeps E a _ _ _ _ Hf) as [Hsl Hq].
  split; [|split; [exact Hrun|]].
  - intros rec n rest videos.
    apply (retry_loop_stops E a rec n rest videos wk _ w1 Hx Hs).
  - rewrite Hrun. unfold events_of, queries, sleeps in *. simpl snd.
    rewrite !filter_app, !length_app, Hq, Hsl, Hlen. simpl. lia.
Qed.

(** Quota exhaustion in the first of five attempts. *)
Lemma C5_quota_exhaustion_stops_retrying_witness :
  search_videos_by_keyword scripted (call "cats" 0 2 5 1) quota_gone
  = (Ok [], {| answers := []; draws := [] |}, [Query "cats" 10; NoVideos]).
Proof.
  refine (proj1 (proj2 (C5_quota_exhaustion_stops_retrying scripted
            (call "cats" 0 2 5 1) 0 quota_gone quota_gone
            {| answers := []; draws := [] |} [] "reason: quotaExceeded"
            _ _ _ _ _))).
  - reflexivity.
  - reflexivity.
  - reflexivity.
  - reflexivity.
  - reflexivity.
Defined.

(* ------------------------------------------------------------------ *)
(** ** A sleep after every retryable failure *)




(* ------------------------------------------------------------------ *)
(** ** One accumulator or one per attempt *)

Section Fresh.

Context (E : Env).

Section FreshBody.

Variable rec : args -> M E (result (list video)).
Variable a : args.

Hypothesis rec_no_http : no_http rec.

Lemma extend_related_no_http ks :
  forall videos w status content,
    fst (fst (fst (extend_related rec a ks videos w)))
    <> Some (HttpError status content).
Proof.
  induction ks as [|kw ks IH]; intros videos w status content; simpl;
    [discriminate|].
  pose proof (rec_no_http (sub_call a kw) w) as Hn.
  destruct (rec (sub_call a kw) w) as [[[found|e] w1] e1];
    unfold returned in Hn; simpl in Hn.
  - specialize (IH (videos ++ found) w1 status content).
    destruct (extend_related rec a ks (videos ++ found) w1) as [[st w2] e2].
    exact IH.
  - simpl. intros H. inversion H. subst. exact (Hn status content eq_refl).
Qed.

Lemma video_metadata_raises d search_result e :
  video_metadata d search_result = Raise e -> exists key, e = KeyError key.
Proof.
  unfold video_metadata.
  destruct (sr_snippet search_result) as [sn|];
    [|intros H; inversion H; eauto].
  destruct (sn_title sn); [|intros H; inversion H; eauto].
  destruct (sr_videoId search_result) as [[vid|]|];
    try (intros H; inversion H; eauto; fail).
  destruct (sn_channelTitle sn); [discriminate|intros H; inversion H; eauto].
Qed.

Lemma process_items_no_http items :
  forall videos w status content,
    fst (fst (fst (process_items rec a items videos w)))
    <> Some (HttpError status content).
Proof.
  induction items as [|it items IH]; intros videos w status content; simpl;
    [discriminate|].
  destruct (video_metadata (depth a) it) as [vm|e] eqn:Hvm.
  2:{ destruct (video_metadata_raises _ _ _ Hvm) as [key Hkey]. subst e.
      simpl. discriminate. }
  destruct (depth a <? max_depth a); [|apply IH].
  pose proof (extend_related_no_http (extract_related_keywords E vm)
                (videos ++ [vm]) w status content) as Hn.
  destruct (extend_related rec a _ _ w) as [[[[e|] videos2] w1] e1];
    simpl in Hn.
  - exact Hn.
  - specialize (IH videos2 w1 status content).
    destruct (process_items rec a items videos2 w1) as [[st w2] e2].
    exact IH.
Qed.

(** An attempt that ends by an [HttpError] has not touched [videos]. *)
Lemma attempt_http videos w status content videos' w1 e1 :
  attempt rec a videos w = ((Some (HttpError status content), videos'), w1, e1)
  -> videos' = videos.
Proof.
  unfold attempt.
  destruct (execute E (keyword a) (max_results a) w) as [[items|e] w0].
  - pose proof (process_items_no_http
                  (match items with Some l => l | None => [] end)
                  videos w0 status content) as Hn.
    destruct (process_items rec a _ videos w0) as [[[[e|] vs] w2] e2];
      simpl in Hn; intros H; inversion H. subst. contradiction.
  - intros H. inversion H. reflexivity.
Qed.

Lemma retry_loop_fresh_eq ns :
  forall w, retry_loop rec a ns [] w = retry_loop_fresh rec a ns w.
Proof.
  induction ns as [|n ns IH]; intros w; simpl; [reflexivity|].
  destruct (attempt rec a [] w) as [[[[e|] videos'] w1] e1] eqn:Ha;
    [|reflexivity].
  destruct e; try reflexivity.
  apply attempt_http in Ha. subst videos'.
  destruct (quota_exceeded status content); [reflexivity|].
  destruct (retryable_status status); [|reflexivity].
  destruct (sleep_time E (default_timeout a) n w1) as [t w2].
  destruct (bind t (time_sleep E)); [|reflexivity].
  rewrite IH. reflexivity.
Qed.

Lemma search_body_fresh_eq w : search_body rec a w = search_body_fresh rec a w.
Proof.
  unfold search_body, search_body_fresh.
  destruct (truthy (api_key a)); [apply retry_loop_fresh_eq | reflexivity].
Qed.

End FreshBody.

Lemma retry_loop_fresh_ext (rec1 rec2 : args -> M E (result (list video))) a :
  (forall a' w, rec1 a' w = rec2 a' w) ->
  forall ns w, retry_loop_fresh rec1 a ns w = retry_loop_fresh rec2 a ns w.
Proof.
  intros Hrec. induction ns as [|n ns IH]; intros w; simpl; [reflexivity|].
  rewrite (attempt_ext E rec1 rec2 a (fun _ kw w' => Hrec _ w')).
  destruct (attempt rec2 a [] w) as [[[[e|] videos'] w1] e1]; [|reflexivity].
  destruct e; try reflexivity.
  destruct (quota_exceeded status content); [reflexivity|].
  destruct (retryable_status status); [|reflexivity].
  destruct (sleep_time E (default_timeout a) n w1) as [t w2].
  destruct (bind t (time_sleep E)); [|reflexivity].
  rewrite IH. reflexivity.
Qed.

Lemma search_no_http f : no_http (search E f).
Proof.
  intros a w status content H. destruct f as [|f]; simpl in H.
  - discriminate H.
  - apply search_body_raises in H. destruct H as [H|[msg H]]; discriminate H.
Qed.

Lemma search_fresh_eq f :
  forall a w, search E f a w = search_fresh E f a w.
Proof.
  induction f as [|f IH]; intros a w; simpl; [reflexivity|].
  rewrite (search_body_fresh_eq (search E f) a (search_no_http f)).
  unfold search_body_fresh. destruct (truthy (api_key a)); [|reflexivity].
  apply retry_loop_fresh_ext. exact IH.
Qed.

End Fresh.

(** C7.  The call returns what it would return if every attempt started
    from a new, empty accumulator: the one list of the code is still empty
    whenever an attempt is retried, so nothing of a failed attempt that was
    retried is in the result.  When the attempts before attempt [k] failed
    and were retried and attempt [k] succeeds, the call returns exactly the
    list [vs] that this attempt builds from the empty list (its items and
    their expansions), and the attempts before it add events only. *)
Theorem C7_accumulator_fresh_per_attempt (E : Env) (a : args) (w : World E) :
  search_videos_by_keyword E a w = search_videos_fresh E a w /\
  (forall (k : nat) wk evk vs w' e,
      truthy (api_key a) = true ->
      Z.of_nat k < max_retries a ->
      after_failures a (range (Z.of_nat k)) w = Some (wk, evk) ->
      attempt (search_videos_by_keyword E) a [] wk = ((None, vs), w', e) ->
      search_videos_by_keyword E a w = (Ok vs, w', evk ++ e)).
Proof.
  split.
  - apply search_fresh_eq.
  - intros k wk evk vs w' e Hk Hlt Hf Ha.
    rewrite (search_after_failures E a k w wk evk Hk Hlt Hf).
    cbn [retry_loop]. rewrite Ha. reflexivity.
Qed.

(** The second attempt succeeds: the result is its list alone. *)
Lemma C7_accumulator_fresh_per_attempt_witness :
  search_videos_by_keyword scripted (call "cats" 0 0 3 1)
    {| answers := [Failure (HttpError 503 "backendError");
                   Response (Some two_items)];
       draws := [500] |}
  = (Ok [tagged "A" "v1" "x y" 0; tagged "Z" "v2" "" 0],
     {| answers := []; draws := [] |},
     [Query "cats" 10; Sleep 0 (backoff 1 0 500)]
     ++ [Query "cats" 10; Found 2]).
Proof.
  refine (proj2 (C7_accumulator_fresh_per_attempt scripted
                   (call "cats" 0 0 3 1) _) 1%nat
            {| answers := [Response (Some two_items)]; draws := [] |}
            _ _ _ _ _ _ _ _).
  - reflexivity.
  - reflexivity.
  - reflexivity.
  - reflexivity.
Defined.

(* ------------------------------------------------------------------ *)
(** ** The order of the returned sequence *)

Section Interleaving.

Context (E : Env).
Variable a : args.

Hypothesis key : truthy (api_key a) = true.
Hypothesis timeout : backoff_ok E a = true.

Lemma extend_related_sub_results ks :
  forall videos w,
    extend_related (search_videos_by_keyword E) a ks videos w
    = let '(rs, w', e) := sub_results a ks w in
      ((None, videos ++ List.concat rs), w', e).
Proof.
  induction ks as [|kw ks IH]; intros videos w; simpl.
  - rewrite app_nil_r. reflexivity.
  - destruct (search_returns E (sub_call a kw) w key timeout) as [found Hf].
    destruct (search_videos_by_keyword E (sub_call a kw) w) as [[r w1] e1].
    unfold returned in Hf. simpl in Hf. subst r.
    rewrite IH. destruct (sub_results a ks w1) as [[rs w2] e2]. simpl.
    rewrite app_assoc. reflexivity.
Qed.

Lemma process_items_interleaved items :
  forall vs videos w,
    map (video_metadata (depth a)) items = map Ok vs ->
    process_items (search_videos_by_keyword E) a items videos w
    = let '(found, w', e) := interleaved a vs w in
      ((None, videos ++ found), w', e).
Proof.
  induction items as [|it items IH]; intros vs videos w Hm;
    destruct vs as [|v vs]; try discriminate; simpl.
  - rewrite app_nil_r. reflexivity.
  - simpl in Hm. inversion Hm as [[Hv Hrest]]. rewrite Hv.
    unfold item_block.
    destruct (depth a <? max_depth a).
    + rewrite extend_related_sub_results.
      destruct (sub_results a (extract_related_keywords E v) w)
        as [[rs w1] e1].
      rewrite (IH vs _ w1 Hrest).
      destruct (interleaved a vs w1) as [[found w2] e2]. simpl.
      rewrite <- !app_assoc. reflexivity.
    + rewrite (IH vs _ w Hrest).
      destruct (interleaved a vs w) as [[found w2] e2]. simpl.
      rewrite <- !app_assoc. reflexivity.
Qed.

(** An attempt that gets an answer with well-formed items. *)
Lemma attempt_interleaved videos w items w1 vs :
  execute E (keyword a) (max_results a) w = (Response items, w1) ->
  map (video_metadata (depth a)) (match items with Some l => l | None => [] end)
  = map Ok vs ->
  attempt (search_videos_by_keyword E) a videos w
  = let '(found, w', e) := interleaved a vs w1 in
    ((None, videos ++ found), w',
     Query (keyword a) (max_results a)
     :: e ++ [Found (List.length (videos ++ found))]).
Proof.
  intros Hx Hm. unfold attempt. rewrite Hx.
  rewrite (process_items_interleaved _ vs videos w1 Hm).
  destruct (interleaved a vs w1) as [[found w2] e2]. reflexivity.
Qed.

End Interleaving.

(* ------------------------------------------------------------------ *)
(** ** Every successful call *)

Section Success.

Context (E : Env).
Variable a : args.

(** A loop over the keywords that ends without an exception has appended
    the result sequences of the calls. *)
Lemma extend_related_success ks :
  forall videos w videos' w' e,
    extend_related (search_videos_by_keyword E) a ks videos w
    = ((None, videos'), w', e) ->
    exists rs, sub_results a ks w = (rs, w', e)
               /\ videos' = videos ++ List.concat rs.
Proof.
  induction ks as [|kw ks IH]; intros videos w videos' w' e; simpl.
  - intros H. inversion H. subst. exists []. split; [reflexivity|].
    simpl. rewrite app_nil_r. reflexivity.
  - destruct (search_videos_by_keyword E (sub_call a kw) w)
      as [[[found|x] w1] e1]; [|discriminate].
    destruct (extend_related (search_videos_by_keyword E) a ks
                (videos ++ found) w1) as [[[x2 v2] w2] e2] eqn:Hext.
    intros H. inversion H. subst.
    destruct (IH _ _ _ _ _ Hext) as [rs [Hrs Hv]].
    rewrite Hrs. exists (found :: rs). split; [reflexivity|].
    simpl. rewrite Hv, app_assoc. reflexivity.
Qed.

(** A loop over the items that ends without an exception has read
    well-formed items and built their interleaving. *)
Lemma process_items_success items :
  forall videos w videos' w' e,
    process_items (search_videos_by_keyword E) a items videos w
    = ((None, videos'), w', e) ->
    exists vs found,
      map (video_metadata (depth a)) items = map Ok vs
      /\ interleaved a vs w = (found, w', e)
      /\ videos' = videos ++ found.
Proof.
  induction items as [|it items IH]; intros videos w videos' w' e; simpl.
  - intros H. inversion H. subst. exists [], []. simpl.
    rewrite app_nil_r. repeat split.
  - destruct (video_metadata (depth a) it) as [vm|x]; [|discriminate].
    destruct (depth a <? max_depth a) eqn:G.
    + destruct (extend_related (search_videos_by_keyword E) a
                  (extract_related_keywords E vm) (videos ++ [vm]) w)
        as [[[[x|] v1] w1] e1] eqn:Hext; [discriminate|].
      destruct (extend_related_success _ _ _ _ _ _ Hext) as [rs [Hrs Hv1]].
      destruct (process_items (search_videos_by_keyword E) a items v1 w1)
        as [[[x2 v2] w2] e2] eqn:Hp.
      intros H. inversion H. subst x2 videos' w' e.
      destruct (IH _ _ _ _ _ Hp) as [vs [found [Hm [Hi Hv2]]]].
      exists (vm :: vs), ((vm :: List.concat rs) ++ found). simpl.
      unfold item_block. rewrite G, Hm, Hrs, Hi. repeat split.
      rewrite Hv2, Hv1. rewrite <- !app_assoc. reflexivity.
    + intros Hp.
      destruct (IH _ _ _ _ _ Hp) as [vs [found [Hm [Hi Hv2]]]].
      exists (vm :: vs), (vm :: found). simpl.
      unfold item_block. rewrite G, Hm, Hi. repeat split.
      rewrite Hv2. rewrite <- !app_assoc. reflexivity.
Qed.

Lemma last_app_cons (l1 : list event) x l2 d :
  last (l1 ++ x :: l2) d = last (x :: l2) d.
Proof.
  induction l1 as [|y l1 IH]; [reflexivity|].
  simpl app. rewrite <- IH. simpl. destruct (l1 ++ x :: l2) eqn:H; [|reflexivity].
  destruct l1; discriminate H.
Qed.

Lemma not_found_after (e1 : list event) x :
  (match x with Found _ => false | _ => true end) = true ->
  ends_with_found (e1 ++ [x]) = false.
Proof.
  intros H. unfold ends_with_found. rewrite last_app_cons. simpl.
  destruct x; try reflexivity. discriminate H.
Qed.

(** An attempt that ends by an [HttpError] is a request that failed. *)
Lemma attempt_http_inv rec videos w status content videos' w1 e1 :
  no_http rec ->
  attempt rec a videos w = ((Some (HttpError status content), videos'), w1, e1)
  -> execute E (keyword a) (max_results a) w
     = (Failure (HttpError status content), w1)
     /\ videos' = videos
     /\ e1 = [Query (keyword a) (max_results a)].
Proof.
  intros Hrec. unfold attempt.
  destruct (execute E (keyword a) (max_results a) w) as [[items|e] w0].
  - pose proof (process_items_no_http E rec a Hrec
                  (match items with Some l => l | None => [] end)
                  videos w0 status content) as Hn.
    destruct (process_items rec a _ videos w0) as [[[[e|] vs] w2] e2];
      simpl in Hn; intros H; inversion H. subst. contradiction.
  - intros H. inversion H. subst. repeat split.
Qed.

Lemma search_videos_no_http : no_http (search_videos_by_keyword E).
Proof.
  intros a' w status content. unfold search_videos_by_keyword.
  apply search_no_http.
Qed.

(** A retry loop that returns by line 124: some attempts failed and were
    retried, and the next one returned what it built. *)
Lemma retry_loop_success ns :
  forall videos w,
    ends_with_found
      (events_of (retry_loop (search_videos_by_keyword E) a ns videos w))
    = true ->
    exists ns1 n ns2 wk evk vs w' e,
      ns = ns1 ++ n :: ns2
      /\ after_failures a ns1 w = Some (wk, evk)
      /\ attempt (search_videos_by_keyword E) a videos wk = ((None, vs), w', e)
      /\ retry_loop (search_videos_by_keyword E) a ns videos w
         = (Ok vs, w', evk ++ e).
Proof.
  induction ns as [|n ns IH]; intros videos w; [discriminate|].
  cbn [retry_loop].
  destruct (attempt (search_videos_by_keyword E) a videos w)
    as [[[[x|] videos'] w1] e1] eqn:Ha.
  2:{ intros _. exists [], n, ns, w, [], videos', w1, e1.
      repeat split. exact Ha. }
  assert (Hbreak : ends_with_found (e1 ++ [NoVideos]) = false)
    by (apply not_found_after; reflexivity).
  unfold events_of.
  destruct x; try (simpl; rewrite Hbreak; discriminate).
  destruct (quota_exceeded status content) eqn:Hq;
    [simpl; rewrite Hbreak; discriminate|].
  destruct (retryable_status status) eqn:Hr;
    [|simpl; rewrite Hbreak; discriminate].
  clear Hbreak.
  destruct (attempt_http_inv _ _ _ _ _ _ _ _ search_videos_no_http Ha)
    as [Hx [Hv He1]]. subst videos' e1.
  destruct (sleep_time E (default_timeout a) n w1) as [t w2] eqn:Ht.
  destruct (bind t (time_sleep E)) as [slept|x] eqn:Hs; [|discriminate].
  specialize (IH videos w2).
  destruct (retry_loop (search_videos_by_keyword E) a ns videos w2)
    as [[r w3] e3] eqn:Hloop.
  unfold events_of in IH. simpl in IH. simpl snd.
  intros Hend.
  assert (He3 : ends_with_found e3 = true).
  { unfold ends_with_found in *. simpl in Hend.
    destruct e3 as [|y e3]; [discriminate Hend | exact Hend]. }
  destruct (IH He3) as (ns1 & n' & ns2 & wk & evk & vs & w' & e
                        & Hns & Hf & Hatt & Heq).
  exists (n :: ns1), n', ns2, wk,
    (Query (keyword a) (max_results a) :: Sleep n slept :: evk), vs, w', e.
  split; [rewrite Hns; reflexivity|].
  split; [simpl; rewrite Hx, Hq, Hr; simpl; rewrite Ht, Hs, Hf; reflexivity|].
  split; [exact Hatt|].
  inversion Heq. subst. reflexivity.
Qed.

Lemma range_prefix m ns1 n ns2 :
  range m = ns1 ++ n :: ns2 ->
  ns1 = range (Z.of_nat (List.length ns1)) /\ Z.of_nat (List.length ns1) < m.
Proof.
  intros H.
  assert (Hlen : (List.length ns1 < Z.to_nat m)%nat).
  { assert (Hl : List.length (range m) = List.length (ns1 ++ n :: ns2))
      by (rewrite H; reflexivity).
    unfold range in Hl.
    rewrite length_map, length_seq, length_app in Hl. simpl in Hl. lia. }
  split; [|lia].
  assert (Hf : firstn (List.length ns1) (range m) = ns1).
  { rewrite H. rewrite firstn_app, Nat.sub_diag, firstn_all. simpl.
    apply app_nil_r. }
  rewrite <- Hf at 1. unfold range.
  rewrite firstn_map, Nat2Z.id. f_equal.
  replace (Z.to_nat m)
    with (List.length ns1 + (Z.to_nat m - List.length ns1))%nat by lia.
  rewrite seq_app, firstn_app, length_seq, Nat.sub_diag. simpl.
  rewrite app_nil_r. apply firstn_all2. rewrite length_seq. lia.
Qed.

End Success.

(** C2.  A call is successful when it returns by line 124, which the log
    of line 123 at the end of its events shows.  For every successful call
    there is an attempt [k], the first to succeed: the attempts before it
    failed and were retried, the API then answered with items, all
    well-formed, which tagged with the depth of the call are [vs]; and the
    call returns the sequence [interleaved a vs]: for each item in the
    order of the answer, the item, then the full result sequences of the
    recursive calls for its keywords in the order the loop takes them,
    before the next item.  The events and the final world are those of
    that traversal.  Conversely a call with a key and a backoff whose
    sleeps [time.sleep] accepts, whose attempt [k] gets such an answer, is
    successful and returns that sequence. *)
Theorem C2_results_interleaved_in_discovery_order
    (E : Env) (a : args) (w : World E) :
  (ends_with_found (events_of (search_videos_by_keyword E a w)) = true ->
   exists (k : nat) wk evk items w1 vs,
     Z.of_nat k < max_retries a
     /\ after_failures a (range (Z.of_nat k)) w = Some (wk, evk)
     /\ execute E (keyword a) (max_results a) wk = (Response items, w1)
     /\ map (video_metadata (depth a))
            (match items with Some l => l | None => [] end) = map Ok vs
     /\ search_videos_by_keyword E a w
        = let '(found, w', e) := interleaved a vs w1 in
          (Ok found, w',
           evk ++ Query (keyword a) (max_results a)
                  :: e ++ [Found (List.length found)])) /\
  (forall (k : nat) wk evk items w1 vs,
     truthy (api_key a) = true ->
     backoff_ok E a = true ->
     Z.of_nat k < max_retries a ->
     after_failures a (range (Z.of_nat k)) w = Some (wk, evk) ->
     execute E (keyword a) (max_results a) wk = (Response items, w1) ->
     map (video_metadata (depth a))
         (match items with Some l => l | None => [] end) = map Ok vs ->
     search_videos_by_keyword E a w
     = let '(found, w', e) := interleaved a vs w1 in
       (Ok found, w',
        evk ++ Query (keyword a) (max_results a)
               :: e ++ [Found (List.length found)])).
Proof.
  split.
  - rewrite search_unfold. unfold search_body.
    destruct (truthy (api_key a)) eqn:Hk; [|discriminate].
    intros Hend.
    destruct (retry_loop_success E a _ _ _ Hend)
      as (ns1 & n & ns2 & wk & evk & vs & w' & e & Hns & Hf & Hatt & Heq).
    destruct (range_prefix _ _ _ _ Hns) as [Hns1 Hlt].
    rewrite Hns1 in Hf. rewrite Heq. clear Heq Hend.
    unfold attempt in Hatt.
    destruct (execute E (keyword a) (max_results a) wk)
      as [[items|x] w1] eqn:Hx; [|discriminate].
    destruct (process_items (search_videos_by_keyword E) a
                (match items with Some l => l | None => [] end) [] w1)
      as [[[[x|] v'] w2] e2] eqn:Hp; [discriminate|].
    inversion Hatt. subst v' w2 e. clear Hatt.
    destruct (process_items_success E a _ _ _ _ _ _ Hp)
      as (its & found & Hm & Hi & Hv). simpl in Hv. subst vs.
    exists (List.length ns1), wk, evk, items, w1, its.
    rewrite Hi. repeat split; assumption.
  - intros k wk evk items w1 vs Hk Hb Hlt Hf Hx Hm.
    rewrite (search_after_failures E a k w wk evk Hk Hlt Hf).
    cbn [retry_loop].
    rewrite (attempt_interleaved E a Hk Hb [] wk items w1 vs Hx Hm).
    destruct (interleaved a vs w1) as [[found w2] e2]. reflexivity.
Qed.

Lemma C2_results_interleaved_in_discovery_order_witness :
  returned (search_videos_by_keyword scripted (call "cats" 0 1 3 1) one_level)
  = Ok [tagged "A" "v1" "x y" 0; tagged "sub" "v3" "deep" 1;
        tagged "Z" "v2" "" 0].
Proof.
  rewrite (proj2 (C2_results_interleaved_in_discovery_order scripted
                    (call "cats" 0 1 3 1) one_level) 1%nat
             {| answers := tl (answers one_level); draws := [] |}
             [Query "cats" 10; Sleep 0 (backoff 1 0 500)]
             (Some two_items)
             {| answers := tl (tl (answers one_level)); draws := [] |}
             [tagged "A" "v1" "x y" 0; tagged "Z" "v2" "" 0]).
  - reflexivity.
  - reflexivity.
  - reflexivity.
  - reflexivity.
  - reflexivity.
  - reflexivity.
  - reflexivity.
Defined.

(* ------------------------------------------------------------------ *)
(** ** Two runs against a deterministic API *)

Section Determinism.

Context (E : Env).
Variable api : string -> Z -> response.
Hypothesis det : deterministic E api.

Section TwoRuns.

Variable rec : args -> M E (result (list video)).
Variable a : args.
Hypothesis timeout : backoff_ok E a = true.
Hypothesis IH : forall kw w1 w2,
  returned (rec (sub_call a kw) w1) = returned (rec (sub_call a kw) w2).

Lemma extend_related_det ks :
  forall videos w1 w2,
    fst (fst (extend_related rec a ks videos w1))
    = fst (fst (extend_related rec a ks videos w2)).
Proof.
  induction ks as [|kw ks IHks]; intros videos w1 w2; simpl; [reflexivity|].
  pose proof (IH kw w1 w2) as Hr. unfold returned in Hr.
  destruct (rec (sub_call a kw) w1) as [[r1 w1'] e1].
  destruct (rec (sub_call a kw) w2) as [[r2 w2'] e2].
  simpl in Hr. subst r2. destruct r1 as [found|e]; [|reflexivity].
  specialize (IHks (videos ++ found) w1' w2').
  destruct (extend_related rec a ks (videos ++ found) w1') as [[s1 u1] f1].
  destruct (extend_related rec a ks (videos ++ found) w2') as [[s2 u2] f2].
  exact IHks.
Qed.

Lemma process_items_det items :
  forall videos w1 w2,
    fst (fst (process_items rec a items videos w1))
    = fst (fst (process_items rec a items videos w2)).
Proof.
  induction items as [|it items IHit]; intros videos w1 w2; simpl;
    [reflexivity|].
  destruct (video_metadata (depth a) it) as [vm|e]; [|reflexivity].
  destruct (depth a <? max_depth a); [|apply IHit].
  pose proof (extend_related_det (extract_related_keywords E vm)
                (videos ++ [vm]) w1 w2) as Hx.
  destruct (extend_related rec a _ _ w1) as [[[x1 v1] u1] f1].
  destruct (extend_related rec a _ _ w2) as [[[x2 v2] u2] f2].
  simpl in Hx. inversion Hx. subst x2 v2.
  destruct x1 as [e|]; [reflexivity|].
  specialize (IHit v1 u1 u2).
  destruct (process_items rec a items v1 u1) as [[s1 t1] g1].
  destruct (process_items rec a items v1 u2) as [[s2 t2] g2].
  exact IHit.
Qed.

Lemma attempt_det videos w1 w2 :
  fst (fst (attempt rec a videos w1)) = fst (fst (attempt rec a videos w2)).
Proof.
  unfold attempt.
  pose proof (det (keyword a) (max_results a) w1) as H1.
  pose proof (det (keyword a) (max_results a) w2) as H2.
  destruct (execute E (keyword a) (max_results a) w1) as [r1 u1].
  destruct (execute E (keyword a) (max_results a) w2) as [r2 u2].
  simpl in H1, H2. subst r1 r2.
  destruct (api (keyword a) (max_results a)) as [items|e]; [|reflexivity].
  pose proof (process_items_det
                (match items with Some l => l | None => [] end)
                videos u1 u2) as Hp.
  destruct (process_items rec a _ videos u1) as [[[x1 v1] t1] g1].
  destruct (process_items rec a _ videos u2) as [[[x2 v2] t2] g2].
  simpl in Hp. inversion Hp. subst x2 v2.
  destruct x1; reflexivity.
Qed.

Lemma retry_loop_det ns :
  incl ns (range (max_retries a)) ->
  forall videos w1 w2,
    returned (retry_loop rec a ns videos w1)
    = returned (retry_loop rec a ns videos w2).
Proof.
  induction ns as [|n ns IHns]; intros Hns videos w1 w2; simpl; [reflexivity|].
  assert (Hn : In n (range (max_retries a))) by (apply Hns; left; reflexivity).
  assert (Hns' : incl ns (range (max_retries a))).
  { intros x Hx. apply Hns. right. exact Hx. }
  pose proof (attempt_det videos w1 w2) as Ha.
  destruct (attempt rec a videos w1) as [[[x1 v1] u1] f1].
  destruct (attempt rec a videos w2) as [[[x2 v2] u2] f2].
  simpl in Ha. inversion Ha. subst x2 v2.
  destruct x1 as [e|]; [|reflexivity].
  destruct e; try reflexivity.
  destruct (quota_exceeded status content); [reflexivity|].
  destruct (retryable_status status); [|reflexivity].
  destruct (backoff_ok_sleep E a n u1 timeout Hn) as (b1 & r1 & _ & Ht1 & Hs1).
  destruct (backoff_ok_sleep E a n u2 timeout Hn) as (b2 & r2 & _ & Ht2 & Hs2).
  rewrite Ht1, Hs1, Ht2, Hs2.
  specialize (IHns Hns' v1 (snd (randint E u1)) (snd (randint E u2))).
  unfold returned in *.
  destruct (retry_loop rec a ns v1 (snd (randint E u1))) as [[x1 s1] g1].
  destruct (retry_loop rec a ns v1 (snd (randint E u2))) as [[x2 s2] g2].
  exact IHns.
Qed.

Lemma search_body_det w1 w2 :
  returned (search_body rec a w1) = returned (search_body rec a w2).
Proof.
  unfold search_body. destruct (truthy (api_key a)); [|reflexivity].
  apply retry_loop_det. apply incl_refl.
Qed.

End TwoRuns.

Lemma search_det f :
  forall a w1 w2, backoff_ok E a = true ->
    returned (search E f a w1) = returned (search E f a w2).
Proof.
  induction f as [|f IHf]; intros a w1 w2 Hb; simpl; [reflexivity|].
  apply search_body_det; [exact Hb|].
  intros kw u1 u2. apply IHf. exact Hb.
Qed.

End Determinism.




(* ------------------------------------------------------------------ *)
(** ** A validated configuration and [main] *)

(** What [validate_config] has checked when it returns. *)
Lemma validate_config_ok c :
  validate_config c = Ok tt ->
  (exists s, get c "api_key" = VStr s /\ Text.falsy s = false) /\
  less_than (get c "requests_per_second") 0 = false /\
  less_than (get c "default_timeout") 0 = false.
Proof.
  unfold validate_config.
  repeat match goal with
         | |- (if ?b then _ else _) = _ -> _ =>
             let H := fresh "H" in
             destruct b eqn:H; [discriminate|];
             apply orb_false_elim in H; destruct H
         end.
  intros _. repeat split; try assumption.
  destruct (get c "api_key"); try discriminate.
  exists s. split; [reflexivity|].
  simpl in *. destruct (Text.falsy s); [discriminate | reflexivity].
Qed.

(** The loop over the seed keywords goes through when the searches return
    and [time.sleep] accepts the pause. *)
Lemma crawl_returns E keywords max_results max_depth api_key max_retries
    default_timeout sleep_time p :
  truthy api_key = true ->
  backoff_ok E {| keyword := ""; max_results := max_results; depth := 0;
                  max_depth := max_depth; api_key := api_key;
                  max_retries := max_retries;
                  default_timeout := default_timeout |} = true ->
  time_sleep E sleep_time = Ok p ->
  forall all_videos w, exists vs,
    returned (crawl E keywords max_results max_depth api_key max_retries
                default_timeout sleep_time all_videos w) = Ok vs.
Proof.
  intros Hk Hb Hs. induction keywords as [|kw kws IH]; intros all_videos w.
  - exists all_videos. reflexivity.
  - cbn [crawl].
    destruct (search_returns E
                {| keyword := kw; max_results := max_results; depth := 0;
                   max_depth := max_depth; api_key := api_key;
                   max_retries := max_retries;
                   default_timeout := default_timeout |} w Hk Hb)
      as [videos Hv].
    destruct (search_videos_by_keyword E _ w) as [[r w1] e1].
    unfold returned in Hv. simpl in Hv. subst r. rewrite Hs.
    destruct (IH (all_videos ++ videos) w1) as [vs Hvs].
    destruct (crawl E kws max_results max_depth api_key max_retries
                default_timeout sleep_time (all_videos ++ videos) w1)
      as [[r2 w2] e2].
    exists vs. exact Hvs.
Qed.

(** For every configuration that passes the checks, whose pause
    [1 / requests_per_second] is computed and is a length that
    [time.sleep] accepts, and whose backoff gives sleeps that [time.sleep]
    accepts, [main] runs to its end. *)
Lemma main_completes E file c (w : World E) p :
  load_config file = Ok c ->
  validate_config c = Ok tt ->
  pause E c = Ok p ->
  backoff_ok E (seed_call c "") = true ->
  fst (fst (main E file w)) = Ok tt.
Proof.
  intros Hl Hv Hp Hb. unfold main. rewrite Hl, Hv.
  destruct (validate_config_ok c Hv) as [[s [Hs Hne]] _].
  unfold pause in Hp.
  destruct (one_over (number_of (get c "requests_per_second")))
    as [sleep_time|e]; [|discriminate Hp].
  simpl in Hp.
  assert (Hkey : truthy (match get c "api_key" with
                         | VStr s => Some s
                         | _ => None
                         end) = true)
    by (rewrite Hs; simpl; rewrite Hne; reflexivity).
  destruct (crawl_returns E
              (match get c "keywords" with VList l => l | _ => [] end)
              (int_of (get c "max_results_per_keyword"))
              (int_of (get c "max_depth"))
              (match get c "api_key" with VStr s => Some s | _ => None end)
              (int_of (get c "max_retries"))
              (number_of (get c "default_timeout"))
              sleep_time p Hkey Hb Hp [] w) as [vs Hvs].
  destruct (crawl E _ _ _ _ _ _ _ [] w) as [[r w1] e1].
  unfold returned in Hvs. simpl in Hvs. subst r. reflexivity.
Qed.

(** A backoff of NaN passes the checks; the first retryable failure of a
    search then makes [time.sleep] raise, and [main] ends there. *)
Example nan_timeout_raises :
  validate_config nan_timeout = Ok tt /\
  main scripted nan_timeout busy_once
  = (Raise (ValueError "Invalid value NaN (not a number)"),
     {| answers := []; draws := [] |}, [Query "cats" 10]).
Proof. split; reflexivity. Qed.

(** A pause of [10^10] seconds passes the checks; [time.sleep] refuses it
    after the search of the first keyword, the second keyword is not
    searched and nothing is saved. *)
Example slow_rate_raises :
  validate_config slow_rate = Ok tt /\
  main scripted slow_rate {| answers := []; draws := [] |}
  = (Raise OverflowError, {| answers := []; draws := [] |},
     [Query "cats" 10; Found 0]).
Proof. split; reflexivity. Qed.

(** C9 fails on the code.  [zero_rate] passes [load_config] and
    [validate_config], and [main] then raises [ZeroDivisionError] at line
    188, [1 / requests_per_second], before the first search: nothing is
    reported for any keyword and nothing is saved. *)
Theorem C9_zero_rate_divides_by_zero :
  load_config zero_rate = Ok zero_rate /\
  validate_config zero_rate = Ok tt /\
  forall (E : Env) (w : World E),
    main E zero_rate w = (Raise ZeroDivisionError, w, []).
Proof.
  split; [reflexivity|]. split; [reflexivity|].
  intros E w. reflexivity.
Qed.

(* ================================================================== *)
(** * Further properties of the code *)

(* ------------------------------------------------------------------ *)
(** ** Lower case and words *)

Lemma lower_char_idem c : Text.lower_char (Text.lower_char c) = Text.lower_char c.
Proof.
  destruct c as [[] [] [] [] [] [] [] []]; reflexivity.
Qed.

Lemma is_word_lower_char c : Text.is_word (Text.lower_char c) = Text.is_word c.
Proof.
  destruct c as [[] [] [] [] [] [] [] []]; reflexivity.
Qed.

Lemma lower_idem s : Text.lower (Text.lower s) = Text.lower s.
Proof.
  induction s as [|c s IH]; simpl; [reflexivity|].
  rewrite lower_char_idem, IH. reflexivity.
Qed.

Lemma lower_empty s : Text.falsy (Text.lower s) = Text.falsy s.
Proof. destruct s; reflexivity. Qed.

Lemma all_chars_append p s t :
  all_chars p (String.append s t) = all_chars p s && all_chars p t.
Proof.
  induction s as [|c s IH]; simpl; [reflexivity|].
  rewrite IH. apply andb_assoc.
Qed.

Lemma falsy_append s c t :
  Text.falsy (String.append s (String c t)) = false.
Proof. destruct s; reflexivity. Qed.

Lemma append_empty_r s : String.append s EmptyString = s.
Proof. induction s as [|c s IH]; simpl; [|rewrite IH]; reflexivity. Qed.

Lemma append_assoc s t u :
  String.append (String.append s t) u = String.append s (String.append t u).
Proof. induction s as [|c s IH]; simpl; [|rewrite IH]; reflexivity. Qed.

Lemma keyword_char_lower c :
  Text.is_word c = true -> keyword_char (Text.lower_char c) = true.
Proof.
  intros H. unfold keyword_char.
  rewrite is_word_lower_char, H, lower_char_idem. simpl.
  apply Ascii.eqb_refl.
Qed.

Lemma keyword_char_word c : keyword_char c = true -> Text.is_word c = true.
Proof. unfold keyword_char. intros H. apply andb_prop in H. apply H. Qed.

Lemma keyword_char_fixed c : keyword_char c = true -> Text.lower_char c = c.
Proof.
  unfold keyword_char. intros H. apply andb_prop in H.
  apply Ascii.eqb_eq. apply H.
Qed.

Lemma token_lower s : all_chars keyword_char s = true -> Text.lower s = s.
Proof.
  induction s as [|c s IH]; simpl; [reflexivity|].
  intros H. apply andb_prop in H. destruct H as [Hc Hs].
  rewrite (keyword_char_fixed c Hc), (IH Hs). reflexivity.
Qed.

(** The runs that [findall] cuts out of a lowered text are keywords. *)
Lemma findall_from_tokens s :
  forall cur, all_chars keyword_char cur = true ->
    Forall (fun t => is_token t = true) (Text.findall_from cur (Text.lower s)).
Proof.
  induction s as [|c s IH]; intros cur Hcur; simpl.
  - destruct cur; constructor; [|constructor].
    unfold is_token. simpl. exact Hcur.
  - rewrite is_word_lower_char.
    destruct (Text.is_word c) eqn:Hw.
    + apply IH. rewrite all_chars_append, Hcur. simpl.
      rewrite (keyword_char_lower c Hw). reflexivity.
    + destruct cur as [|c0 cur]; [apply IH; reflexivity|].
      constructor; [|apply IH; reflexivity].
      unfold is_token. simpl. exact Hcur.
Qed.

Lemma findall_words_tokens s :
  Forall (fun t => is_token t = true) (Text.findall_words (Text.lower s)).
Proof. apply findall_from_tokens. reflexivity. Qed.

(** A text made of word characters is one run. *)
Lemma findall_from_word t :
  forall cur, all_chars Text.is_word t = true ->
    Text.findall_from cur t
    = if Text.falsy (String.append cur t) then [] else [String.append cur t].
Proof.
  induction t as [|c t IH]; intros cur H; simpl.
  - rewrite append_empty_r. destruct cur; reflexivity.
  - simpl in H. apply andb_prop in H. destruct H as [Hc Ht]. rewrite Hc.
    rewrite (IH _ Ht), append_assoc. reflexivity.
Qed.

Lemma all_chars_impl (p q : ascii -> bool) s :
  (forall c, p c = true -> q c = true) ->
  all_chars p s = true -> all_chars q s = true.
Proof.
  intros Hpq. induction s as [|c s IH]; simpl; [reflexivity|].
  intros H. apply andb_prop in H. destruct H as [Hc Hs].
  rewrite (Hpq c Hc), (IH Hs). reflexivity.
Qed.

(** [findall] finds nothing exactly in a text without a word character. *)
Lemma findall_from_nil s :
  forall cur, Text.findall_from cur s = [] <->
    cur = EmptyString /\ all_chars (fun c => negb (Text.is_word c)) s = true.
Proof.
  induction s as [|c s IH]; intros cur; simpl.
  - destruct cur; split; try discriminate; try tauto.
    intros [H _]. discriminate H.
  - destruct (Text.is_word c) eqn:Hw; simpl.
    + rewrite IH. split; [|intros [_ H]; discriminate H].
      intros [H _]. destruct cur; discriminate H.
    + destruct cur as [|c0 cur].
      * rewrite IH. tauto.
      * split; [discriminate|]. intros [H _]. discriminate H.
Qed.

(* ------------------------------------------------------------------ *)
(** ** The keywords of a record *)

Lemma set_list_nil (E : Env) l : set_list E l = [] <-> l = [].
Proof.
  split; intros H.
  - destruct l as [|x l]; [reflexivity|].
    assert (Hin : In x (set_list E (x :: l)))
      by (apply set_list_In; left; reflexivity).
    rewrite H in Hin. destruct Hin.
  - subst l. destruct (set_list E []) as [|x l] eqn:Hs; [reflexivity|].
    assert (Hin : In x (set_list E [])) by (rewrite Hs; left; reflexivity).
    apply set_list_In in Hin. destruct Hin.
Qed.

Lemma wordless_lower s : wordless (Text.lower s) = wordless s.
Proof.
  unfold wordless. induction s as [|c s IH]; simpl; [reflexivity|].
  rewrite is_word_lower_char, IH. reflexivity.
Qed.

Lemma findall_words_nil s : Text.findall_words s = [] <-> wordless s = true.
Proof.
  unfold Text.findall_words, wordless. rewrite findall_from_nil. tauto.
Qed.

Lemma extract_tokens (E : Env) (v : video) :
  Forall (fun kw => Text.falsy kw = false
                    /\ all_chars Text.is_word kw = true
                    /\ Text.lower kw = kw)
         (extract_related_keywords E v).
Proof.
  unfold extract_related_keywords.
  destruct (Text.falsy (v_description v)); [constructor|].
  apply Forall_forall. intros kw Hin. apply set_list_In in Hin.
  assert (Ht : is_token kw = true).
  { apply in_app_or in Hin.
    destruct Hin as [Hin|Hin];
      [pose proof (findall_words_tokens (v_title v)) as Hf
      |pose proof (findall_words_tokens (v_description v)) as Hf];
      rewrite Forall_forall in Hf; apply Hf; exact Hin. }
  unfold is_token in Ht. apply andb_prop in Ht. destruct Ht as [Hne Hall].
  split; [destruct (Text.falsy kw); [discriminate | reflexivity]|].
  split; [|apply token_lower; exact Hall].
  apply (all_chars_impl keyword_char); [exact keyword_char_word | exact Hall].
Qed.

(** X1.  Every keyword that the extractor returns is a lower-case word: it
    is not empty, each of its characters is a word character, and
    [str.lower] leaves it unchanged. *)
Theorem extract_keywords_are_tokens (E : Env) (v : video) :
  Forall (fun kw => Text.falsy kw = false
                    /\ all_chars Text.is_word kw = true
                    /\ Text.lower kw = kw)
         (extract_related_keywords E v).
Proof. apply extract_tokens. Qed.

(** X2.  The extractor returns a set.  The list has no duplicate; when the
    description is not empty its elements are exactly the words of the
    lowered title and of the lowered description; two environments,
    whatever their orders of enumeration, return the same keywords up to
    the order; and there are no more keywords, hence no more recursive
    calls for an item, than words in its title and description. *)
Theorem extract_is_the_set_of_words (E : Env) (v : video) :
  NoDup (extract_related_keywords E v) /\
  (forall kw,
      In kw (extract_related_keywords E v) <->
      Text.falsy (v_description v) = false /\
      (In kw (Text.findall_words (Text.lower (v_title v))) \/
       In kw (Text.findall_words (Text.lower (v_description v))))) /\
  (forall E' : Env,
      Permutation (extract_related_keywords E v)
                  (extract_related_keywords E' v)) /\
  (List.length (extract_related_keywords E v)
   <= List.length (Text.findall_words (Text.lower (v_title v)))
      + List.length (Text.findall_words (Text.lower (v_description v))))%nat.
Proof.
  assert (Hnd : forall E0, NoDup (extract_related_keywords E0 v)).
  { intros E0. unfold extract_related_keywords.
    destruct (Text.falsy (v_description v));
      [constructor | apply set_list_NoDup]. }
  assert (Hin : forall E0 kw,
             In kw (extract_related_keywords E0 v) <->
             Text.falsy (v_description v) = false /\
             (In kw (Text.findall_words (Text.lower (v_title v))) \/
              In kw (Text.findall_words (Text.lower (v_description v))))).
  { intros E0 kw. unfold extract_related_keywords.
    destruct (Text.falsy (v_description v)).
    - simpl. split; [tauto | intros [H _]; discriminate H].
    - rewrite set_list_In, in_app_iff. tauto. }
  split; [apply Hnd|]. split; [apply Hin|]. split.
  - intros E'. apply NoDup_Permutation; [apply Hnd | apply Hnd|].
    intros kw. rewrite (Hin E kw), (Hin E' kw). tauto.
  - rewrite <- length_app. apply NoDup_incl_length; [apply Hnd|].
    intros kw Hkw. apply Hin in Hkw. apply in_or_app. tauto.
Qed.

(** X3.  The extractor does not see the case of the letters: the record
    with its title and description in lower case has the same keywords, in
    the same order. *)
Theorem extract_ignores_case (E : Env) (v : video) :
  extract_related_keywords E (lowered v) = extract_related_keywords E v.
Proof.
  unfold extract_related_keywords, lowered. simpl.
  rewrite lower_empty, !lower_idem. reflexivity.
Qed.

(** X4.  The extractor returns no keyword in two cases only: the
    description is empty, or neither the title nor the description has a
    word character.  A description that is not empty and has no word
    character does not prune: the words of the title are returned. *)
Theorem extract_empty_iff (E : Env) (v : video) :
  (extract_related_keywords E v = [] <->
   Text.falsy (v_description v) = true \/
   (wordless (v_title v) = true /\ wordless (v_description v) = true)) /\
  (Text.falsy (v_description v) = false ->
   wordless (v_description v) = true ->
   extract_related_keywords E v
   = set_list E (Text.findall_words (Text.lower (v_title v)))).
Proof.
  unfold extract_related_keywords. split.
  - destruct (Text.falsy (v_description v)); [tauto|].
    rewrite set_list_nil. split.
    + intros H. apply app_eq_nil in H. destruct H as [Ht Hd].
      apply findall_words_nil in Ht. apply findall_words_nil in Hd.
      rewrite wordless_lower in Ht, Hd. right. split; assumption.
    + intros [H|[Ht Hd]]; [discriminate H|].
      rewrite <- wordless_lower in Ht, Hd.
      apply findall_words_nil in Ht. apply findall_words_nil in Hd.
      rewrite Ht, Hd. reflexivity.
  - intros Hne Hd. rewrite Hne.
    rewrite <- wordless_lower in Hd. apply findall_words_nil in Hd.
    rewrite Hd, app_nil_r. reflexivity.
Qed.

(** A description of punctuation marks alone: the title is searched. *)
Lemma extract_empty_iff_witness :
  extract_related_keywords scripted
    {| v_title := "Python 3"; v_url := ""; v_channel := "";
       v_description := "!!!"; v_depth := 0 |}
  = distinct ["python"; "3"]%string.
Proof.
  refine (proj2 (extract_empty_iff scripted _) _ _).
  - reflexivity.
  - reflexivity.
Defined.

(** X5.  A keyword is a fixed point of the tokenizer: lowering and
    splitting an extracted keyword gives back that keyword alone. *)
Theorem extract_keywords_are_fixed (E : Env) (v : video) :
  Forall (fun kw => Text.findall_words (Text.lower kw) = [kw])
         (extract_related_keywords E v).
Proof.
  eapply Forall_impl; [|apply extract_tokens].
  intros kw [Hne [Hw Hl]]. rewrite Hl. unfold Text.findall_words.
  rewrite (findall_from_word kw EmptyString Hw). simpl. rewrite Hne.
  reflexivity.
Qed.

(* ------------------------------------------------------------------ *)
(** ** Calls that cannot query, and calls at the depth limit *)

Lemma range_nonpos m : m <= 0 -> range m = [].
Proof.
  intros H. unfold range. replace (Z.to_nat m) with 0%nat by lia. reflexivity.
Qed.

(** X6.  Without a key the call raises [ValueError] before it touches the
    API; with a key and no attempt to make ([max_retries <= 0]) it returns
    the empty list, with the log of line 142 and no request. *)
Theorem search_without_request (E : Env) (a : args) (w : World E) :
  (truthy (api_key a) = false ->
   search_videos_by_keyword E a w
   = (Raise (ValueError "API key is required"), w, [])) /\
  (truthy (api_key a) = true -> max_retries a <= 0 ->
   search_videos_by_keyword E a w = (Ok [], w, [NoVideos])).
Proof.
  rewrite search_unfold. unfold search_body. split.
  - intros H. rewrite H. reflexivity.
  - intros H Hm. rewrite H, (range_nonpos _ Hm). reflexivity.
Qed.

Lemma search_without_request_witness :
  search_videos_by_keyword scripted (call "cats" 0 2 0 1) busy_once
  = (Ok [], busy_once, [NoVideos]).
Proof.
  refine (proj2 (search_without_request scripted (call "cats" 0 2 0 1)
                   busy_once) _ _).
  - reflexivity.
  - discriminate.
Defined.

(** At the depth limit the loop over the items calls nothing. *)
Lemma process_items_at_limit (E : Env)
    (rec : args -> M E (result (list video))) a items :
  max_depth a <= depth a ->
  forall vs videos w,
    map (video_metadata (depth a)) items = map Ok vs ->
    process_items rec a items videos w = ((None, videos ++ vs), w, []).
Proof.
  intros Hd.
  assert (G : (depth a <? max_depth a) = false) by (apply Z.ltb_ge; exact Hd).
  induction items as [|it items IH]; intros vs videos w Hm;
    destruct vs as [|v vs]; try discriminate; simpl.
  - rewrite app_nil_r. reflexivity.
  - simpl in Hm. inversion Hm as [[Hv Hrest]]. rewrite Hv, G.
    rewrite (IH vs _ w Hrest), <- app_assoc. reflexivity.
Qed.

(** X7.  At the depth limit ([max_depth <= depth], as with
    [max_depth = 0] for a seed keyword) a call whose attempt [k] is the
    first to get an answer returns the items of that answer, each once, in
    the order of the answer and tagged with the depth of the call; it makes
    no recursive call, whatever the descriptions, and no request after that
    one. *)
Theorem search_at_depth_limit
    (E : Env) (a : args) (k : nat) (w wk w1 : World E) (evk : list event)
    (items : option (list search_result)) (vs : list video) :
  truthy (api_key a) = true ->
  max_depth a <= depth a ->
  Z.of_nat k < max_retries a ->
  after_failures a (range (Z.of_nat k)) w = Some (wk, evk) ->
  execute E (keyword a) (max_results a) wk = (Response items, w1) ->
  map (video_metadata (depth a)) (match items with Some l => l | None => [] end)
  = map Ok vs ->
  search_videos_by_keyword E a w
  = (Ok vs, w1,
     evk ++ [Query (keyword a) (max_results a); Found (List.length vs)]) /\
  Forall (fun v => v_depth v = depth a) vs.
Proof.
  intros Hk Hd Hlt Hf Hx Hm. split.
  - rewrite (search_after_failures E a k w wk evk Hk Hlt Hf).
    cbn [retry_loop]. unfold attempt. rewrite Hx.
    rewrite (process_items_at_limit E _ a _ Hd vs [] w1 Hm). reflexivity.
  - clear - Hm. revert vs Hm.
    induction (match items with Some l => l | None => [] end) as [|it l IH];
      intros vs Hm; destruct vs as [|v vs]; try discriminate;
      [constructor|].
    simpl in Hm. injection Hm as Hv Hrest.
    constructor; [apply (video_metadata_depth _ _ _ Hv) | apply IH; exact Hrest].
Qed.

(** One answer at depth limit 0: the descriptions are not expanded. *)
Lemma search_at_depth_limit_witness :
  search_videos_by_keyword scripted (call "cats" 0 0 2 1)
    {| answers := [Response (Some two_items)]; draws := [] |}
  = (Ok [tagged "A" "v1" "x y" 0; tagged "Z" "v2" "" 0],
     {| answers := []; draws := [] |},
     [] ++ [Query "cats" 10; Found 2]).
Proof.
  refine (proj1 (search_at_depth_limit scripted (call "cats" 0 0 2 1) 0
                   {| answers := [Response (Some two_items)]; draws := [] |}
                   {| answers := [Response (Some two_items)]; draws := [] |}
                   {| answers := []; draws := [] |} [] (Some two_items)
                   [tagged "A" "v1" "x y" 0; tagged "Z" "v2" "" 0]
                   _ _ _ _ _ _)).
  - reflexivity.
  - discriminate.
  - reflexivity.
  - reflexivity.
  - reflexivity.
  - reflexivity.
Defined.

(* ------------------------------------------------------------------ *)
(** ** An item that lacks a key *)

(** The loop over the items stops at the first item that lacks a key, with
    the interleaving of the items before it. *)
Lemma process_items_malformed (E : Env) a bad rest e :
  truthy (api_key a) = true -> backoff_ok E a = true ->
  video_metadata (depth a) bad = Raise e ->
  forall good vs videos w,
    map (video_metadata (depth a)) good = map Ok vs ->
    process_items (search_videos_by_keyword E) a (good ++ bad :: rest) videos w
    = let '(found, w', ev) := interleaved a vs w in
      ((Some e, videos ++ found), w', ev).
Proof.
  intros Hk Hb Hbad.
  induction good as [|it good IH]; intros vs videos w Hm;
    destruct vs as [|v vs]; try discriminate; simpl.
  - rewrite Hbad, app_nil_r. reflexivity.
  - simpl in Hm. injection Hm as Hv Hrest. rewrite Hv.
    unfold item_block.
    destruct (depth a <? max_depth a).
    + rewrite (extend_related_sub_results E a Hk Hb).
      destruct (sub_results a (extract_related_keywords E v) w)
        as [[rs w1] e1].
      rewrite (IH vs _ w1 Hrest).
      destruct (interleaved a vs w1) as [[found w2] e2]. simpl.
      rewrite <- !app_assoc. reflexivity.
    + rewrite (IH vs _ w Hrest).
      destruct (interleaved a vs w) as [[found w2] e2]. simpl.
      rewrite <- !app_assoc. reflexivity.
Qed.

(** X8.  When an item of the answer lacks a key that the controller reads
    ([snippet], [title], [id], [videoId] or [channelTitle]), the
    [KeyError] ends the attempt and the retry loop: the call does not
    retry and does not raise; it returns the videos gathered from the
    items before the bad one, with their expansions, and drops the items
    after it; and it closes with the log of line 142.  The backoff is one
    whose sleeps [time.sleep] accepts, so that the expansions return. *)
Theorem search_item_without_key
    (E : Env) (a : args) (k : nat) (w wk w1 : World E) (evk : list event)
    (good rest : list search_result) (bad : search_result) (e : exn)
    (vs : list video) :
  truthy (api_key a) = true ->
  backoff_ok E a = true ->
  Z.of_nat k < max_retries a ->
  after_failures a (range (Z.of_nat k)) w = Some (wk, evk) ->
  execute E (keyword a) (max_results a) wk
  = (Response (Some (good ++ bad :: rest)), w1) ->
  map (video_metadata (depth a)) good = map Ok vs ->
  video_metadata (depth a) bad = Raise e ->
  search_videos_by_keyword E a w
  = let '(found, w', ev) := interleaved a vs w1 in
    (Ok found, w',
     evk ++ Query (keyword a) (max_results a) :: ev ++ [NoVideos]).
Proof.
  intros Hk Hb Hlt Hf Hx Hm Hbad.
  rewrite (search_after_failures E a k w wk evk Hk Hlt Hf).
  cbn [retry_loop]. unfold attempt. rewrite Hx.
  rewrite (process_items_malformed E a bad rest e Hk Hb Hbad good vs [] w1 Hm).
  destruct (interleaved a vs w1) as [[found w2] e2].
  destruct (video_metadata_raises _ _ _ Hbad) as [key Hkey]. subst e.
  reflexivity.
Qed.

(** The second of three items has no title. *)
Lemma search_item_without_key_witness :
  search_videos_by_keyword scripted (call "cats" 0 0 2 1)
    {| answers :=
         [Response (Some ([item "A" "v1" "c" None]
                          ++ {| sr_snippet := None;
                                sr_videoId := Some (Some "v2"%string) |}
                          :: [item "Z" "v3" "c" None]))];
       draws := [] |}
  = (Ok [tagged "A" "v1" "" 0], {| answers := []; draws := [] |},
     [] ++ Query "cats" 10 :: [] ++ [NoVideos]).
Proof.
  refine (search_item_without_key scripted (call "cats" 0 0 2 1) 0 _ _
            {| answers := []; draws := [] |} []
            [item "A" "v1" "c" None] [item "Z" "v3" "c" None]
            {| sr_snippet := None; sr_videoId := Some (Some "v2"%string) |}
            (KeyError "snippet") [tagged "A" "v1" "" 0] _ _ _ _ _ _ _).
  - reflexivity.
  - reflexivity.
  - reflexivity.
  - reflexivity.
  - reflexivity.
  - reflexivity.
  - reflexivity.
Defined.

(* ------------------------------------------------------------------ *)
(** ** The addresses of the videos *)

Lemma prefix_append p s : String.prefix p (String.append p s) = true.
Proof.
  induction p as [|c p IH]; simpl; [destruct s; reflexivity|].
  destruct (ascii_dec c c) as [_|Hn]; [exact IH | contradiction].
Qed.

Lemma append_inj p s t : String.append p s = String.append p t -> s = t.
Proof.
  induction p as [|c p IH]; simpl; [tauto|].
  intros H. injection H as H. apply IH. exact H.
Qed.

Lemma video_metadata_url d search_result v :
  video_metadata d search_result = Ok v ->
  exists vid, sr_videoId search_result = Some (Some vid)
              /\ v_url v = String.append watch_prefix vid.
Proof.
  unfold video_metadata.
  destruct (sr_snippet search_result) as [sn|]; [|discriminate].
  destruct (sn_title sn); [|discriminate].
  destruct (sr_videoId search_result) as [[vid|]|]; try discriminate.
  destruct (sn_channelTitle sn); [|discriminate].
  intros H. inversion H. exists vid. split; reflexivity.
Qed.

(** X9.  The address of a video is the watch prefix followed by the
    identifier of the item, so it determines the identifier: two items
    whose videos have the same address have the same [videoId]. *)
Theorem video_url_determines_id d1 d2 sr1 sr2 v1 v2 :
  video_metadata d1 sr1 = Ok v1 ->
  video_metadata d2 sr2 = Ok v2 ->
  v_url v1 = v_url v2 ->
  sr_videoId sr1 = sr_videoId sr2.
Proof.
  intros H1 H2 Hu.
  destruct (video_metadata_url _ _ _ H1) as [i1 [Hi1 Hu1]].
  destruct (video_metadata_url _ _ _ H2) as [i2 [Hi2 Hu2]].
  rewrite Hu1, Hu2 in Hu. apply append_inj in Hu.
  rewrite Hi1, Hi2, Hu. reflexivity.
Qed.

Lemma video_url_determines_id_witness :
  sr_videoId (item "A" "v1" "c" None)
  = sr_videoId (item "B" "v1" "d" (Some "x"%string)).
Proof.
  apply (video_url_determines_id 0 3 _ _
           {| v_title := "A"; v_url := String.append watch_prefix "v1";
              v_channel := "c"; v_description := ""; v_depth := 0 |}
           {| v_title := "B"; v_url := String.append watch_prefix "v1";
              v_channel := "d"; v_description := "x"; v_depth := 3 |}).
  - reflexivity.
  - reflexivity.
  - reflexivity.
Defined.

(** X10.  Every video that a call returns, at any depth of the crawl, has
    an address that starts with the watch prefix. *)
Theorem search_returns_watch_urls (E : Env) (a : args) (w : World E) :
  Forall (fun v => String.prefix watch_prefix (v_url v) = true)
         (videos_of (returned (search_videos_by_keyword E a w))).
Proof.
  assert (H : inv_run (fun _ _ => True)
                (fun _ v => String.prefix watch_prefix (v_url v) = true)
                a (search_videos_by_keyword E a w)).
  { apply run_invariant; try (intros; exact I).
    - intros a0 kw v _ Hv. exact Hv.
    - intros a0 sr v Hv.
      destruct (video_metadata_url _ _ _ Hv) as [vid [_ Hu]].
      rewrite Hu. apply prefix_append. }
  exact (proj2 H).
Qed.

(* ------------------------------------------------------------------ *)
(** ** The queries of the recursion *)

Section KeywordInvariant.

Context (E : Env).
Variable Pe : args -> event -> Prop.

Hypothesis Pe_sub : forall a kw e,
  depth a < max_depth a -> is_token kw = true ->
  Pe (sub_call a kw) e -> Pe a e.
Hypothesis Pe_query : forall a, Pe a (Query (keyword a) (max_results a)).
Hypothesis Pe_call : forall a kw,
  depth a < max_depth a -> is_token kw = true -> Pe a (Call a (sub_call a kw)).
Hypothesis Pe_sleep : forall a n t, Pe a (Sleep n t).
Hypothesis Pe_found : forall a c, Pe a (Found c).
Hypothesis Pe_novideos : forall a, Pe a NoVideos.

Section KeywordStep.

Variable rec : args -> M E (result (list video)).
Variable a : args.
Hypothesis IH : depth a < max_depth a ->
  forall kw w, Forall (Pe (sub_call a kw)) (events_of (rec (sub_call a kw) w)).

Lemma extend_related_kw (below : depth a < max_depth a) ks :
  Forall (fun kw => is_token kw = true) ks ->
  forall videos w, Forall (Pe a) (snd (extend_related rec a ks videos w)).
Proof.
  induction ks as [|kw ks IHks]; intros Hks videos w; simpl; [constructor|].
  inversion Hks as [|x l Hkw Hrest]. subst.
  pose proof (IH below kw w) as He. unfold events_of in He.
  assert (Hcall : Pe a (Call a (sub_call a kw))) by (apply Pe_call; assumption).
  destruct (rec (sub_call a kw) w) as [[[found|e] w1] e1]; simpl in He.
  - specialize (IHks Hrest (videos ++ found) w1).
    destruct (extend_related rec a ks (videos ++ found) w1) as [[st w2] e2].
    simpl in *. constructor; [exact Hcall|].
    apply Forall_app. split; [|exact IHks].
    eapply Forall_impl; [|exact He]. intros e. apply Pe_sub; assumption.
  - simpl. constructor; [exact Hcall|].
    eapply Forall_impl; [|exact He]. intros e'. apply Pe_sub; assumption.
Qed.

Lemma extract_all_tokens v :
  Forall (fun kw => is_token kw = true) (extract_related_keywords E v).
Proof.
  eapply Forall_impl; [|apply extract_tokens].
  intros kw [Hne [Hw Hl]]. unfold is_token. rewrite Hne. simpl.
  clear Hne. induction kw as [|c kw IHkw]; [reflexivity|].
  simpl in *. apply andb_prop in Hw. destruct Hw as [Hc Hw].
  injection Hl as Hc' Hl'. unfold keyword_char at 1.
  rewrite Hc, Hc', Ascii.eqb_refl. simpl. apply IHkw; assumption.
Qed.

Lemma process_items_kw items :
  forall videos w, Forall (Pe a) (snd (process_items rec a items videos w)).
Proof.
  induction items as [|it items IHit]; intros videos w; simpl; [constructor|].
  destruct (video_metadata (depth a) it) as [vm|e]; [|constructor].
  destruct (depth a <? max_depth a) eqn:G; [|apply IHit].
  apply Z.ltb_lt in G.
  pose proof (extend_related_kw G _ (extract_all_tokens vm) (videos ++ [vm]) w)
    as He1.
  destruct (extend_related rec a _ _ w) as [[[[e|] videos2] w1] e1];
    simpl in *; [exact He1|].
  specialize (IHit videos2 w1).
  destruct (process_items rec a items videos2 w1) as [[st w2] e2]. simpl in *.
  apply Forall_app. split; assumption.
Qed.

Lemma attempt_kw videos w : Forall (Pe a) (snd (attempt rec a videos w)).
Proof.
  unfold attempt.
  destruct (execute E (keyword a) (max_results a) w) as [[items|e] w1].
  - pose proof (process_items_kw
                  (match items with Some l => l | None => [] end) videos w1)
      as He.
    destruct (process_items rec a _ videos w1) as [[[[e|] videos'] w2] e2];
      simpl in *; (constructor; [apply Pe_query|]); [exact He|].
    apply Forall_app. split; [exact He|].
    constructor; [apply Pe_found | constructor].
  - simpl. constructor; [apply Pe_query | constructor].
Qed.

Lemma retry_loop_kw ns :
  forall videos w, Forall (Pe a) (events_of (retry_loop rec a ns videos w)).
Proof.
  unfold events_of.
  induction ns as [|n ns IHns]; intros videos w; simpl.
  - constructor; [apply Pe_novideos | constructor].
  - pose proof (attempt_kw videos w) as He1.
    assert (Hbreak : Forall (Pe a) (snd (attempt rec a videos w) ++ [NoVideos])).
    { apply Forall_app. split; [exact He1|].
      constructor; [apply Pe_novideos | constructor]. }
    destruct (attempt rec a videos w) as [[[[e|] videos'] w1] e1];
      simpl in *; [|exact He1].
    destruct e; try exact Hbreak.
    destruct (quota_exceeded status content); [exact Hbreak|].
    destruct (retryable_status status); [|exact Hbreak].
    destruct (sleep_time E (default_timeout a) n w1) as [t w2].
    destruct (bind t (time_sleep E)) as [slept|x]; [|exact He1].
    specialize (IHns videos' w2).
    destruct (retry_loop rec a ns videos' w2) as [[r w3] e3]. simpl in *.
    apply Forall_app. split; [exact He1|].
    constructor; [apply Pe_sleep | exact IHns].
Qed.

End KeywordStep.

Lemma keyword_invariant a w :
  Forall (Pe a) (events_of (search_videos_by_keyword E a w)).
Proof.
  revert a w.
  apply (search_induct E (fun a x => Forall (Pe a) (events_of x))).
  intros rec a w IH. unfold search_body.
  destruct (truthy (api_key a)); [|constructor].
  apply retry_loop_kw. exact IH.
Qed.

End KeywordInvariant.

(** X11.  Every request of a run carries the result cap of the call, and
    its query is the keyword of the call or a keyword in lower case: the
    recursion searches for single lower-case words only, each the keyword
    of a recursive call. *)
Theorem search_queries_are_keywords (E : Env) (a : args) (w : World E) :
  Forall (query_ok a) (events_of (search_videos_by_keyword E a w)).
Proof.
  apply keyword_invariant; try (intros; exact I).
  - intros a0 kw e _ Hkw. destruct e; simpl; trivial.
    intros [Hm [Hq|Hq]]; (split; [exact Hm|]); right;
      [rewrite Hq; exact Hkw | exact Hq].
  - intros a0. simpl. split; [reflexivity | left; reflexivity].
  - intros a0 kw _ Hkw. exact Hkw.
Qed.

(* ------------------------------------------------------------------ *)
(** ** Counting requests, sleeps and closing lines *)

Lemma count_app (p : event -> bool) l1 l2 :
  List.length (filter p (l1 ++ l2))
  = (List.length (filter p l1) + List.length (filter p l2))%nat.
Proof. rewrite filter_app, length_app. reflexivity. Qed.

Ltac count_events :=
  unfold within_budget, sleeps, queries, calls, closings in *;
  repeat
    (first
       [ progress
           cbn [filter is_sleep is_query is_call is_closing List.length app
                snd fst] in *
       | rewrite count_app in * ]);
  lia.

Section Budget.

Context (E : Env).
Variable rec : args -> M E (result (list video)).
Variable a : args.

Let r : nat := Z.to_nat (max_retries a).

Hypothesis IH : depth a < max_depth a ->
  forall kw w, within_budget r r (events_of (rec (sub_call a kw) w)).

Lemma extend_related_budget (below : depth a < max_depth a) ks :
  forall videos w, within_budget r 0 (snd (extend_related rec a ks videos w)).
Proof.
  induction ks as [|kw ks IHks]; intros videos w; simpl.
  - count_events.
  - pose proof (IH below kw w) as He. unfold events_of in He.
    destruct (rec (sub_call a kw) w) as [[[found|e] w1] e1]; simpl in He.
    + specialize (IHks (videos ++ found) w1).
      destruct (extend_related rec a ks (videos ++ found) w1) as [[st w2] e2].
      simpl in *. count_events.
    + simpl. count_events.
Qed.

Lemma process_items_budget items :
  forall videos w, within_budget r 0 (snd (process_items rec a items videos w)).
Proof.
  induction items as [|it items IHit]; intros videos w; simpl.
  - count_events.
  - destruct (video_metadata (depth a) it) as [vm|e]; [|count_events].
    destruct (depth a <? max_depth a) eqn:G; [|apply IHit].
    apply Z.ltb_lt in G.
    pose proof (extend_related_budget G (extract_related_keywords E vm)
                  (videos ++ [vm]) w) as He1.
    destruct (extend_related rec a _ _ w) as [[[[e|] videos2] w1] e1];
      simpl in *; [exact He1|].
    specialize (IHit videos2 w1).
    destruct (process_items rec a items videos2 w1) as [[st w2] e2].
    simpl in *. count_events.
Qed.

Lemma attempt_budget videos w :
  (S (sleeps (snd (attempt rec a videos w)))
   <= queries (snd (attempt rec a videos w)))%nat /\
  (queries (snd (attempt rec a videos w))
   <= 1 + r * calls (snd (attempt rec a videos w)))%nat.
Proof.
  unfold attempt.
  destruct (execute E (keyword a) (max_results a) w) as [[items|e] w1].
  - pose proof (process_items_budget
                  (match items with Some l => l | None => [] end) videos w1)
      as He.
    destruct (process_items rec a _ videos w1) as [[[[e|] videos'] w2] e2];
      simpl in *; count_events.
  - simpl. count_events.
Qed.

Lemma retry_loop_budget ns :
  forall videos w,
    within_budget r (List.length ns)
      (events_of (retry_loop rec a ns videos w)).
Proof.
  unfold events_of.
  induction ns as [|n ns IHns]; intros videos w; simpl.
  - count_events.
  - pose proof (attempt_budget videos w) as He1.
    destruct (attempt rec a videos w) as [[[[e|] videos'] w1] e1];
      simpl in *; [|count_events].
    destruct e; try count_events.
    destruct (quota_exceeded status content); [count_events|].
    destruct (retryable_status status); [|count_events].
    destruct (sleep_time E (default_timeout a) n w1) as [t w2].
    destruct (bind t (time_sleep E)) as [slept|x]; [|count_events].
    specialize (IHns videos' w2).
    destruct (retry_loop rec a ns videos' w2) as [[r0 w3] e3]. simpl in *.
    count_events.
Qed.

Lemma search_body_budget w :
  within_budget r r (events_of (search_body rec a w)).
Proof.
  unfold search_body. destruct (truthy (api_key a)).
  - pose proof (retry_loop_budget (range (max_retries a)) [] w) as H.
    unfold range in H. rewrite length_map, length_seq in H. exact H.
  - unfold events_of. count_events.
Qed.

End Budget.

(** X12.  A run never sleeps more often than it queries, and it makes at
    most [max_retries] requests for the call itself and for each recursive
    call it issues. *)
Theorem search_request_budget (E : Env) (a : args) (w : World E) :
  (sleeps (events_of (search_videos_by_keyword E a w))
   <= queries (events_of (search_videos_by_keyword E a w)))%nat /\
  (queries (events_of (search_videos_by_keyword E a w))
   <= Z.to_nat (max_retries a)
      * S (calls (events_of (search_videos_by_keyword E a w))))%nat.
Proof.
  assert (H : within_budget (Z.to_nat (max_retries a))
                (Z.to_nat (max_retries a))
                (events_of (search_videos_by_keyword E a w))).
  { revert a w.
    apply (search_induct E
             (fun a x => within_budget (Z.to_nat (max_retries a))
                           (Z.to_nat (max_retries a)) (events_of x))).
    intros rec a w IH. apply search_body_budget. exact IH. }
  unfold within_budget in H. lia.
Qed.

Section Closing.

Context (E : Env).
Variable rec : args -> M E (result (list video)).
Variable a : args.

Hypothesis timeout : backoff_ok E a = true.
Hypothesis IH : depth a < max_depth a ->
  forall kw w,
    closings (events_of (rec (sub_call a kw) w))
    = S (calls (events_of (rec (sub_call a kw) w)))
    /\ exists vs, returned (rec (sub_call a kw) w) = Ok vs.

Lemma extend_related_closing (below : depth a < max_depth a) ks :
  forall videos w,
    fst (fst (fst (extend_related rec a ks videos w))) = None
    /\ closings (snd (extend_related rec a ks videos w))
       = calls (snd (extend_related rec a ks videos w)).
Proof.
  induction ks as [|kw ks IHks]; intros videos w; simpl.
  - split; reflexivity.
  - destruct (IH below kw w) as [He [found Hr]].
    unfold events_of, returned in He, Hr.
    destruct (rec (sub_call a kw) w) as [[r w1] e1]. simpl in He, Hr.
    subst r.
    specialize (IHks (videos ++ found) w1).
    destruct (extend_related rec a ks (videos ++ found) w1) as [[st w2] e2].
    simpl in *. split; [apply IHks|]. count_events.
Qed.

Lemma process_items_closing items :
  forall videos w,
    closings (snd (process_items rec a items videos w))
    = calls (snd (process_items rec a items videos w)).
Proof.
  induction items as [|it items IHit]; intros videos w; simpl.
  - reflexivity.
  - destruct (video_metadata (depth a) it) as [vm|e]; [|reflexivity].
    destruct (depth a <? max_depth a) eqn:G; [|apply IHit].
    apply Z.ltb_lt in G.
    destruct (extend_related_closing G (extract_related_keywords E vm)
                (videos ++ [vm]) w) as [Hx He1].
    destruct (extend_related rec a _ _ w) as [[[x videos2] w1] e1].
    simpl in Hx, He1. subst x.
    specialize (IHit videos2 w1).
    destruct (process_items rec a items videos2 w1) as [[st w2] e2].
    simpl in *. count_events.
Qed.

Lemma attempt_closing videos w :
  closings (snd (attempt rec a videos w))
  = (calls (snd (attempt rec a videos w))
     + match fst (fst (fst (attempt rec a videos w))) with
       | None => 1
       | Some _ => 0
       end)%nat.
Proof.
  unfold attempt.
  destruct (execute E (keyword a) (max_results a) w) as [[items|e] w1].
  - pose proof (process_items_closing
                  (match items with Some l => l | None => [] end) videos w1)
      as He.
    destruct (process_items rec a _ videos w1) as [[[[e|] videos'] w2] e2];
      simpl in *; count_events.
  - reflexivity.
Qed.

Lemma retry_loop_closing ns :
  incl ns (range (max_retries a)) ->
  forall videos w,
    closings (events_of (retry_loop rec a ns videos w))
    = S (calls (events_of (retry_loop rec a ns videos w))).
Proof.
  unfold events_of.
  induction ns as [|n ns IHns]; intros Hns videos w; simpl.
  - reflexivity.
  - assert (Hn : In n (range (max_retries a))) by (apply Hns; left; reflexivity).
    assert (Hns' : incl ns (range (max_retries a))).
    { intros x Hx. apply Hns. right. exact Hx. }
    pose proof (attempt_closing videos w) as He1.
    destruct (attempt rec a videos w) as [[[[e|] videos'] w1] e1];
      simpl in *; [|count_events].
    destruct e; try count_events.
    destruct (quota_exceeded status content); [count_events|].
    destruct (retryable_status status); [|count_events].
    destruct (backoff_ok_sleep E a n w1 timeout Hn) as (b & r0 & _ & Ht & Hs).
    rewrite Ht, Hs.
    specialize (IHns Hns' videos' (snd (randint E w1))).
    destruct (retry_loop rec a ns videos' (snd (randint E w1)))
      as [[r1 w3] e3]. simpl in *.
    count_events.
Qed.

End Closing.



(* ------------------------------------------------------------------ *)
(** ** How long a call waits *)

Lemma pow2_succ (s : nat) :
  (inject_Z (2 ^ Z.of_nat (S s)) == 2 * inject_Z (2 ^ Z.of_nat s))%Q.
Proof.
  rewrite Nat2Z.inj_succ, Z.pow_succ_r by lia.
  rewrite inject_Z_mult. reflexivity.
Qed.

Lemma pow2_ge_1 n : 0 <= n -> (1 <= inject_Z (2 ^ n))%Q.
Proof.
  intros H. change 1%Q with (inject_Z 1). rewrite <- Zle_Qle.
  assert (0 < 2 ^ n) by (apply Z.pow_pos_nonneg; lia). lia.
Qed.

(** X14.  With a backoff of one second or more the sleeps of successive
    attempts do not shrink, whatever the jitter: the sleep of attempt
    [n + 1] is at least that of attempt [n].  With the backoff 0, which
    [validate_config] accepts, the sleep is the jitter alone in every
    attempt: at most one second, and no longer in a later attempt. *)
Theorem backoff_grows (b : Q) (n j j' : Z) :
  0 <= n -> 0 <= j <= 1000 -> 0 <= j' <= 1000 ->
  ((1 <= b)%Q -> (backoff b n j <= backoff b (n + 1) j')%Q) /\
  (backoff 0 n j == j # 1000)%Q.
Proof.
  intros Hn Hj Hj'. split.
  - intros Hb. unfold backoff.
    destruct (jitter_bounds j Hj) as [_ Hj1].
    destruct (jitter_bounds j' Hj') as [Hj0 _].
    replace (n + 1) with (Z.succ n) by lia.
    rewrite Z.pow_succ_r by lia. rewrite inject_Z_mult.
    pose proof (pow2_ge_1 n Hn) as Hp.
    assert (Hbp : (1 <= b * inject_Z (2 ^ n))%Q).
    { setoid_replace 1%Q with (1 * 1)%Q by reflexivity.
      apply Qmult_le_compat_nonneg; split; (discriminate || assumption). }
    change (inject_Z 2) with 2%Q. lra.
  - unfold backoff. lra.
Qed.

(** The longest sleep of attempt 0 is no longer than the shortest sleep of
    attempt 1, for a backoff of one second. *)
Lemma backoff_grows_witness :
  Qle_bool (backoff 1 0 1000) (backoff 1 (0 + 1) 0) = true.
Proof.
  apply Qle_bool_iff.
  refine (proj1 (backoff_grows 1 0 1000 0 _ _ _) _).
  - lia.
  - lia.
  - lia.
  - discriminate.
Defined.

Lemma total_sleep_app l1 l2 :
  (total_sleep (l1 ++ l2) == total_sleep l1 + total_sleep l2)%Q.
Proof.
  induction l1 as [|e l1 IH]; simpl; [lra|].
  destruct e; rewrite IH; lra.
Qed.

(** The attempts [s, s + 1, ...] that fail and are retried sleep at least
    the sum of the powers and at most one second more each, and the backoff
    of a call that has slept is a finite number. *)
Lemma after_failures_total (E : Env) a len :
  forall (s : nat) (w wk : World E) ev b,
    seconds (default_timeout a) = Some b ->
    after_failures a (map Z.of_nat (seq s len)) w = Some (wk, ev) ->
    (b * (inject_Z (2 ^ Z.of_nat (s + len)) - inject_Z (2 ^ Z.of_nat s))
     <= total_sleep ev
     /\ total_sleep ev
        <= b * (inject_Z (2 ^ Z.of_nat (s + len)) - inject_Z (2 ^ Z.of_nat s))
           + inject_Z (Z.of_nat len))%Q.
Proof.
  induction len as [|len IH]; intros s w wk ev b Hsec H; simpl in H.
  - inversion H. subst. rewrite Nat.add_0_r.
    cbn [total_sleep Z.of_nat]. change (inject_Z 0) with 0%Q.
    assert (Hz : (b * (inject_Z (2 ^ Z.of_nat s) - inject_Z (2 ^ Z.of_nat s))
                  == 0)%Q) by ring.
    rewrite Hz. split; lra.
  - destruct (execute E (keyword a) (max_results a) w) as [[items|e] w1];
      [discriminate|].
    destruct e; try discriminate.
    destruct (negb (quota_exceeded status content) && retryable_status status);
      [|discriminate].
    destruct (sleep_time E (default_timeout a) (Z.of_nat s) w1) as [t w2] eqn:Ht.
    destruct (bind t (time_sleep E)) as [slept|x] eqn:Hs; [|discriminate].
    destruct (slept_backoff E _ _ _ _ _ _ Ht Hs)
      as (b' & j & Hb' & Hj & Hq & _).
    rewrite Hsec in Hb'. inversion Hb'. subst b' slept. clear Hb'.
    destruct (after_failures a (map Z.of_nat (seq (S s) len)) w2)
      as [[w' e']|] eqn:Hrest; [|discriminate].
    inversion H. subst. clear H.
    destruct (IH (S s) w2 wk e' b Hsec Hrest) as [Hlo Hhi].
    destruct (backoff_bounds b (Z.of_nat s) j Hj) as [Hblo Hbhi].
    replace (s + S len)%nat with (S s + len)%nat by lia.
    pose proof (pow2_succ s) as H2.
    rewrite H2 in Hlo, Hhi.
    replace (Z.of_nat (S len)) with (Z.of_nat len + 1) by lia.
    rewrite inject_Z_plus. change (inject_Z 1) with 1%Q.
    cbn [total_sleep]. split; lra.
Qed.

(** The total of the sleeps of a call whose attempts all fail and are
    retried. *)
Lemma exhausted_total (E : Env) a (w w' : World E) ev b :
  truthy (api_key a) = true ->
  0 <= max_retries a ->
  seconds (default_timeout a) = Some b ->
  after_failures a (range (max_retries a)) w = Some (w', ev) ->
  (b * (inject_Z (2 ^ max_retries a) - 1)
   <= total_sleep (events_of (search_videos_by_keyword E a w))
   /\ total_sleep (events_of (search_videos_by_keyword E a w))
      <= b * (inject_Z (2 ^ max_retries a) - 1) + inject_Z (max_retries a))%Q.
Proof.
  intros Hk Hm Hsec Hf.
  rewrite (search_exhausted E a w w' ev Hk Hf). unfold events_of. simpl snd.
  rewrite total_sleep_app. simpl.
  destruct (after_failures_total E a (Z.to_nat (max_retries a)) 0 w w' ev b
              Hsec Hf) as [Hlo Hhi].
  simpl in Hlo, Hhi. rewrite Z2Nat.id in Hlo, Hhi by exact Hm.
  change (inject_Z 1) with 1%Q in Hlo, Hhi. split; lra.
Qed.

Lemma backoff_ok_seconds E a :
  backoff_ok E a = true ->
  exists b, seconds (default_timeout a) = Some b /\ (0 <= b)%Q.
Proof.
  unfold backoff_ok. destruct (default_timeout a) as [z|[q| |neg]];
    try discriminate; intros H.
  - apply andb_prop in H. destruct H as [Hz _]. apply Z.leb_le in Hz.
    exists (inject_Z z). split; [reflexivity|].
    change 0%Q with (inject_Z 0). rewrite <- Zle_Qle. exact Hz.
  - apply andb_prop in H. destruct H as [H _].
    apply andb_prop in H. destruct H as [Hq _]. apply Qle_bool_iff in Hq.
    exists q. split; [reflexivity | exact Hq].
Qed.



(* ------------------------------------------------------------------ *)
(** ** The classification of a failure *)

Lemma prefix_iff n h :
  String.prefix n h = true <-> exists post, h = String.append n post.
Proof.
  revert h. induction n as [|c n IH]; intros h.
  - split; [intros _; exists h; reflexivity | intros _; destruct h; reflexivity].
  - destruct h as [|d h]; simpl.
    + split; [discriminate | intros [post H]; discriminate H].
    + destruct (ascii_dec c d) as [Hcd|Hcd].
      * subst d. rewrite IH. split; intros [post H]; exists post.
        -- rewrite H. reflexivity.
        -- injection H as H. exact H.
      * split; [discriminate|]. intros [post H]. injection H as Hc _.
        congruence.
Qed.

Lemma contains_iff n h :
  Text.contains n h = true <->
  exists pre post, h = String.append pre (String.append n post).
Proof.
  induction h as [|d h IH]; cbn [Text.contains].
  - rewrite orb_false_r, prefix_iff. split.
    + intros [post H]. exists EmptyString, post. exact H.
    + intros [pre [post H]]. destruct pre; [exists post; exact H|].
      discriminate H.
  - rewrite orb_true_iff, prefix_iff, IH. split.
    + intros [[post H]|[pre [post H]]].
      * exists EmptyString, post. exact H.
      * exists (String d pre), post. rewrite H. reflexivity.
    + intros [pre [post H]]. destruct pre as [|c pre].
      * left. exists post. exact H.
      * right. injection H as _ H. exists pre, post. exact H.
Qed.


(* ------------------------------------------------------------------ *)
(** ** The checks of the configuration *)

Lemma get_missing c key : has_key c key = false -> get c key = VNone.
Proof.
  induction c as [|[k v] c IH]; simpl; [reflexivity|].
  intros H. apply orb_false_elim in H. destruct H as [Hk Hc].
  rewrite Hk. apply IH. exact Hc.
Qed.

Lemma get_present c key : get c key <> VNone -> has_key c key = true.
Proof.
  intros H. destruct (has_key c key) eqn:Hk; [reflexivity|].
  elim H. apply get_missing. exact Hk.
Qed.

Lemma less_than_int v bound :
  isinstance_int v = true -> less_than v bound = false -> bound <= int_of v.
Proof.
  intros Hi Hl. unfold less_than in Hl.
  destruct v as [|[|]|z| | |]; try discriminate; simpl in *;
    apply Z.ltb_ge in Hl; exact Hl.
Qed.

Lemma less_than_not_negative v :
  less_than v 0 = false -> not_negative (number_of v) = true.
Proof.
  unfold less_than, not_negative. intros H. rewrite H. reflexivity.
Qed.

(** A finite number that is not below zero is at least zero. *)
Lemma not_negative_seconds x b :
  not_negative x = true -> seconds x = Some b -> (0 <= b)%Q.
Proof.
  unfold not_negative. destruct x as [z|[q| |neg]]; simpl; try discriminate.
  - intros H Hb. inversion Hb. subst b.
    apply negb_true_iff, Z.ltb_ge in H.
    change 0%Q with (inject_Z 0). rewrite <- Zle_Qle. exact H.
  - intros H Hb. inversion Hb. subst b.
    rewrite negb_involutive in H. apply Qle_bool_iff in H. exact H.
Qed.

(** What [validate_config] has checked when it returns. *)
Lemma validate_config_post c :
  validate_config c = Ok tt ->
  (exists s, get c "api_key" = VStr s /\ Text.falsy s = false) /\
  (exists l, get c "keywords" = VList l /\ l <> []) /\
  isinstance_int (get c "max_results_per_keyword") = true /\
  1 <= int_of (get c "max_results_per_keyword") /\
  isinstance_number (get c "requests_per_second") = true /\
  not_negative (number_of (get c "requests_per_second")) = true /\
  isinstance_int (get c "max_depth") = true /\
  1 <= int_of (get c "max_depth") /\
  isinstance_int (get c "max_retries") = true /\
  1 <= int_of (get c "max_retries") /\
  isinstance_number (get c "default_timeout") = true /\
  not_negative (number_of (get c "default_timeout")) = true.
Proof.
  unfold validate_config.
  repeat match goal with
         | |- (if ?b then _ else _) = _ -> _ =>
             let H := fresh "H" in
             destruct b eqn:H; [discriminate|];
             apply orb_false_elim in H; destruct H
         end.
  intros _.
  repeat match goal with
         | H : negb _ = false |- _ => apply negb_false_iff in H
         end.
  repeat split;
    try assumption;
    try (apply less_than_not_negative; assumption);
    try (apply (less_than_int _ 1); assumption).
  - destruct (get c "api_key"); try discriminate.
    exists s. split; [reflexivity|].
    simpl in *. destruct (Text.falsy s); [discriminate | reflexivity].
  - destruct (get c "keywords") as [| | | | |l]; try discriminate.
    exists l. split; [reflexivity|]. destruct l; [discriminate|discriminate].
Qed.

(** X17.  The checks of [load_config] on the parsed file are implied by
    those of [validate_config]: a configuration that [validate_config]
    accepts has a key and the four required entries, so [load_config]
    returns it unchanged. *)
Theorem validate_implies_load (c : config) :
  validate_config c = Ok tt -> load_config c = Ok c.
Proof.
  intros Hv.
  destruct (validate_config_post c Hv)
    as ([s [Hs Hne]] & [l [Hl _]] & Hmr & _ & Hrps & _ & Hmd & _).
  unfold load_config. rewrite Hs. simpl. rewrite Hne. simpl.
  rewrite !(get_present c); try reflexivity.
  - intros H. rewrite H in Hmd. discriminate Hmd.
  - intros H. rewrite H in Hrps. discriminate Hrps.
  - intros H. rewrite H in Hmr. discriminate Hmr.
  - rewrite Hl. discriminate.
Qed.

Lemma validate_implies_load_witness : load_config test_config = Ok test_config.
Proof.
  apply (validate_implies_load test_config). reflexivity.
Defined.



(** [load_config] returns the file it has checked. *)
Lemma load_config_same file c : load_config file = Ok c -> c = file.
Proof.
  unfold load_config. destruct (negb _); [discriminate|].
  destruct (forallb _ _); [|discriminate]. intros H. inversion H. reflexivity.
Qed.

(** X19.  The defaults of lines 186-187 are never used: a configuration
    without [max_retries] or without [default_timeout] does not pass
    [validate_config], and [main] then makes no search and saves nothing;
    when the file passed [load_config], it returns without an error. *)
Theorem main_rejects_missing_retry_settings
    (E : Env) (file : config) (w : World E) :
  has_key file "max_retries" = false \/ has_key file "default_timeout" = false
  ->
  validate_config file <> Ok tt /\
  snd (main E file w) = [] /\
  (load_config file = Ok file -> main E file w = (Ok tt, w, [])).
Proof.
  intros Hmiss.
  assert (Hv : validate_config file <> Ok tt).
  { intros Hv.
    destruct (validate_config_post file Hv)
      as (_ & _ & _ & _ & _ & _ & _ & _ & Hre & _ & Hto & _).
    destruct Hmiss as [H|H]; apply get_missing in H.
    - rewrite H in Hre. discriminate Hre.
    - rewrite H in Hto. discriminate Hto. }
  split; [exact Hv|].
  unfold main. destruct (load_config file) as [c|e] eqn:Hl.
  - rewrite (load_config_same file c Hl).
    destruct (validate_config file) as [[]|e]; [elim Hv; reflexivity|].
    split; [reflexivity|]. intros _. reflexivity.
  - split; [reflexivity|]. discriminate.
Qed.

Lemma main_rejects_missing_retry_settings_witness :
  main scripted
    [("api_key", VStr "key"); ("keywords", VList ["cats"]);
     ("max_results_per_keyword", VInt 10); ("requests_per_second", VInt 2);
     ("max_depth", VInt 2)]%string busy_once
  = (Ok tt, busy_once, []).
Proof.
  refine (proj2 (proj2 (main_rejects_missing_retry_settings scripted _
                          busy_once _)) _).
  - left. reflexivity.
  - reflexivity.
Defined.

(* ------------------------------------------------------------------ *)
(** ** What [main] searches and saves *)

Lemma crawl_seed_runs (E : Env) (c : config) sleep_time p keywords :
  truthy (api_key (seed_call c "")) = true ->
  backoff_ok E (seed_call c "") = true ->
  time_sleep E sleep_time = Ok p ->
  forall all_videos w,
    crawl E keywords (int_of (get c "max_results_per_keyword"))
      (int_of (get c "max_depth"))
      (match get c "api_key" with VStr s => Some s | _ => None end)
      (int_of (get c "max_retries")) (number_of (get c "default_timeout"))
      sleep_time all_videos w
    = let '(rs, w', ev) := seed_runs E c p keywords w in
      (Ok (all_videos ++ List.concat rs), w', ev).
Proof.
  intros Hk Hb Hp.
  induction keywords as [|kw kws IH]; intros all_videos w.
  - simpl. rewrite app_nil_r. reflexivity.
  - cbn [crawl seed_runs].
    change {| keyword := kw;
              max_results := int_of (get c "max_results_per_keyword");
              depth := 0; max_depth := int_of (get c "max_depth");
              api_key := match get c "api_key" with
                         | VStr s => Some s
                         | _ => None
                         end;
              max_retries := int_of (get c "max_retries");
              default_timeout := number_of (get c "default_timeout") |}
      with (seed_call c kw).
    destruct (search_returns E (seed_call c kw) w Hk Hb) as [videos Hv].
    destruct (search_videos_by_keyword E (seed_call c kw) w) as [[r w1] e1].
    unfold returned in Hv. simpl in Hv. subst r. rewrite Hp, IH.
    destruct (seed_runs E c p kws w1) as [[rs w2] e2]. simpl.
    rewrite <- app_assoc. reflexivity.
Qed.

(** A search holds no pause of [main]. *)
Lemma search_no_rate_limit (E : Env) a (w : World E) :
  rate_limits (events_of (search_videos_by_keyword E a w)) = 0%nat.
Proof.
  assert (H : inv_run (fun _ e => is_rate_limit e = false) (fun _ _ => True)
                a (search_videos_by_keyword E a w)).
  { apply run_invariant; try (intros; reflexivity); try (intros; exact I).
    intros a0 kw e _ He. exact He. }
  destruct H as [H _]. unfold rate_limits.
  induction H as [|e l He Hl IH]; [reflexivity|].
  simpl. rewrite He. exact IH.
Qed.

Lemma seed_runs_rate_limits (E : Env) c p keywords :
  forall w,
    rate_limits (snd (seed_runs E c p keywords w)) = List.length keywords.
Proof.
  induction keywords as [|kw kws IH]; intros w; simpl; [reflexivity|].
  pose proof (search_no_rate_limit E (seed_call c kw) w) as Hs.
  unfold events_of in Hs.
  destruct (search_videos_by_keyword E (seed_call c kw) w) as [[r w1] e1].
  specialize (IH w1). destruct (seed_runs E c p kws w1) as [[rs w2] e2].
  simpl in *. unfold rate_limits in *.
  rewrite filter_app, length_app. simpl. lia.
Qed.

(** [main] on a configuration that passes the checks, with a pause and
    sleeps that [time.sleep] accepts. *)
Lemma main_runs_seeds (E : Env) (file c : config) (w : World E) p :
  load_config file = Ok c ->
  validate_config c = Ok tt ->
  pause E c = Ok p ->
  backoff_ok E (seed_call c "") = true ->
  main E file w
  = (let '(rs, w', ev) := seed_runs E c p (seeds c) w in
     (Ok tt, w', ev ++ [Saved (List.concat rs)])).
Proof.
  intros Hl Hv Hp Hb.
  destruct (validate_config_post c Hv) as ([s [Hs Hne]] & _).
  assert (Hk : truthy (api_key (seed_call c "")) = true).
  { unfold seed_call. simpl. rewrite Hs. simpl. rewrite Hne. reflexivity. }
  unfold main. rewrite Hl, Hv. unfold pause in Hp.
  destruct (one_over (number_of (get c "requests_per_second")))
    as [sleep_time|e]; [|discriminate Hp].
  simpl in Hp.
  change (match get c "keywords" with VList l => l | _ => [] end)
    with (seeds c).
  rewrite (crawl_seed_runs E c sleep_time p (seeds c) Hk Hb Hp [] w).
  destruct (seed_runs E c p (seeds c) w) as [[rs w1] e1]. reflexivity.
Qed.



(** The videos of a search for a seed keyword. *)
Lemma seed_search_ok (E : Env) c kw (w : World E) :
  Forall (saved_ok c) (events_of (search_videos_by_keyword E (seed_call c kw) w))
  /\ Forall (fun v => 0 <= v_depth v <= Z.max 0 (int_of (get c "max_depth"))
                      /\ String.prefix watch_prefix (v_url v) = true)
            (videos_of (returned (search_videos_by_keyword E (seed_call c kw) w))).
Proof.
  assert (H : inv_run (fun _ e => saved_ok c e)
                (fun a0 v => depth_ok a0 v
                             /\ String.prefix watch_prefix (v_url v) = true)
                (seed_call c kw)
                (search_videos_by_keyword E (seed_call c kw) w)).
  { apply run_invariant; try (intros; exact I).
    - intros a0 kw0 e _ He. exact He.
    - intros a0 kw0 v below [Hd Hu]. split; [|exact Hu].
      apply (depth_ok_sub a0 kw0 v below Hd).
    - intros a0 sr v Hv. split.
      + apply video_metadata_depth in Hv. unfold depth_ok. lia.
      + destruct (video_metadata_url _ _ _ Hv) as [vid [_ Hu]].
        rewrite Hu. apply prefix_append. }
  destruct H as [He H]. split; [exact He|].
  eapply Forall_impl; [|exact H]. intros v [Hd Hu]. split; [|exact Hu].
  unfold depth_ok in Hd. simpl in Hd. exact Hd.
Qed.

(** The loop over the seed keywords saves nothing itself, and the videos
    it hands to the save, when it gets there, are those of the searches. *)
Lemma crawl_saved_ok (E : Env) (c : config) sleep_time keywords :
  forall all_videos w,
    Forall (fun v => 0 <= v_depth v <= Z.max 0 (int_of (get c "max_depth"))
                     /\ String.prefix watch_prefix (v_url v) = true)
           all_videos ->
    Forall (saved_ok c)
      (snd (crawl E keywords (int_of (get c "max_results_per_keyword"))
              (int_of (get c "max_depth"))
              (match get c "api_key" with VStr s => Some s | _ => None end)
              (int_of (get c "max_retries"))
              (number_of (get c "default_timeout"))
              sleep_time all_videos w))
    /\ Forall (fun v => 0 <= v_depth v <= Z.max 0 (int_of (get c "max_depth"))
                        /\ String.prefix watch_prefix (v_url v) = true)
         (videos_of
            (returned
               (crawl E keywords (int_of (get c "max_results_per_keyword"))
                  (int_of (get c "max_depth"))
                  (match get c "api_key" with VStr s => Some s | _ => None end)
                  (int_of (get c "max_retries"))
                  (number_of (get c "default_timeout"))
                  sleep_time all_videos w))).
Proof.
  induction keywords as [|kw kws IH]; intros all_videos w Hall.
  - split; [constructor | exact Hall].
  - cbn [crawl].
    change {| keyword := kw;
              max_results := int_of (get c "max_results_per_keyword");
              depth := 0; max_depth := int_of (get c "max_depth");
              api_key := match get c "api_key" with
                         | VStr s => Some s
                         | _ => None
                         end;
              max_retries := int_of (get c "max_retries");
              default_timeout := number_of (get c "default_timeout") |}
      with (seed_call c kw).
    destruct (seed_search_ok E c kw w) as [He Hv].
    unfold events_of, returned in He, Hv.
    destruct (search_videos_by_keyword E (seed_call c kw) w)
      as [[[videos|x] w1] e1]; simpl in He, Hv.
    + destruct (time_sleep E sleep_time) as [slept|x].
      * assert (Hall' : Forall (fun v =>
                           0 <= v_depth v <= Z.max 0 (int_of (get c "max_depth"))
                           /\ String.prefix watch_prefix (v_url v) = true)
                          (all_videos ++ videos))
          by (apply Forall_app; split; assumption).
        destruct (IH (all_videos ++ videos) w1 Hall') as [He2 Hv2].
        unfold returned in Hv2.
        destruct (crawl E kws _ _ _ _ _ sleep_time (all_videos ++ videos) w1)
          as [[r2 w2] e2]. simpl in *.
        split; [|exact Hv2].
        apply Forall_app. split; [exact He|].
        constructor; [exact I | exact He2].
      * split; [exact He | constructor].
    + split; [exact He | constructor].
Qed.

(** X21.  Whatever the file and the world, [main] saves only videos whose
    address starts with the watch prefix and whose depth tag lies between
    0 and the [max_depth] of the configuration. *)
Theorem main_saves_bounded_depths (E : Env) (file : config) (w : World E) :
  Forall (saved_ok file) (snd (main E file w)).
Proof.
  destruct (load_config file) as [c|e] eqn:Hl;
    [|unfold main; rewrite Hl; constructor].
  pose proof (load_config_same file c Hl) as Hc. subst c.
  destruct (validate_config file) as [[]|e] eqn:Hv;
    [|unfold main; rewrite Hl, Hv; constructor].
  destruct (validate_config_post file Hv)
    as (_ & _ & _ & _ & _ & _ & _ & Hmd & _).
  unfold main. rewrite Hl, Hv.
  destruct (one_over (number_of (get file "requests_per_second")))
    as [sleep_time|e]; [|constructor].
  destruct (crawl_saved_ok E file sleep_time
              (match get file "keywords" with VList l => l | _ => [] end)
              [] w (Forall_nil _)) as [He Hs].
  unfold returned in Hs.
  destruct (crawl E _ _ _ _ _ _ sleep_time [] w) as [[[all_videos|x] w1] e1];
    simpl in *; [|exact He].
  apply Forall_app. split; [exact He|].
  constructor; [|constructor]. simpl.
  eapply Forall_impl; [|exact Hs].
  intros v [Hd Hu]. split; [lia | exact Hu].
Qed.
